(** * nengo.utils.ipython: a shallow embedding and its properties

    The module [nengo/utils/ipython.py] is glue around the notebook
    conversion toolchain: it strips [get_ipython()] calls from exported
    scripts, patches exported HTML, relocates extracted images and iterates
    over notebook cells.  Text is modelled as a list of characters, Python's
    [str] methods are written out as executable functions, exceptions are
    an error result, and the file system and the [uuid] generator are an
    explicit world that is threaded through the exporting functions. *)

From Stdlib Require Import Ascii String DecimalString.
From Stdlib Require Import List ZArith Lia Bool Arith.
Import ListNotations.

(** ** Text *)

Definition text := list ascii.

(** A Python string literal. *)
Definition lit (s : string) : text := list_ascii_of_string s.

(** The newline character ['\n']. *)
Definition nl : ascii := Ascii.ascii_of_nat 10.

(** The text whose lines are [ls], each one closed by a newline. *)
Definition unlines (ls : list string) : text :=
  concat (map (fun l => lit l ++ [nl]) ls).

Definition text_eqb (a b : text) : bool :=
  if list_eq_dec ascii_dec a b then true else false.

(** ** Python's [str] methods *)

Module PyStr.

(** [s.startswith(p)] *)
Fixpoint startswith (s p : text) {struct p} : bool :=
  match p with
  | [] => true
  | c :: p' =>
      match s with
      | [] => false
      | d :: s' => if Ascii.eqb c d then startswith s' p' else false
      end
  end.

(** Index of the leftmost occurrence of [sub] in [s], if there is one. *)
Fixpoint find0 (sub s : text) : option nat :=
  match s with
  | [] => if startswith [] sub then Some 0 else None
  | _ :: s' =>
      if startswith s sub then Some 0 else option_map S (find0 sub s')
  end.

(** [sub in s] *)
Definition contains (sub s : text) : bool :=
  match find0 sub s with Some _ => true | None => false end.

(** How Python normalises a slice or search bound [i] of a sequence of
    length [len]: a negative bound counts from the end, and the result is
    clipped to [0 .. len]. *)
Definition clip (len : nat) (i : Z) : nat :=
  Z.to_nat (Z.min (Z.of_nat len)
                  (if (i <? 0)%Z then Z.max (i + Z.of_nat len) 0 else i)).

(** [s[:i]] *)
Definition slice_to (s : text) (i : Z) : text := firstn (clip (length s) i) s.

(** [s[i:]] *)
Definition slice_from (s : text) (i : Z) : text := skipn (clip (length s) i) s.

(** [s.find(sub, start)]: the lowest index at or after [start] where [sub]
    occurs, [-1] when there is none. *)
Definition find (s sub : text) (start : Z) : Z :=
  let n := Z.of_nat (length s) in
  let start' := if (start <? 0)%Z then Z.max (start + n) 0 else start in
  if (n <? start')%Z then (-1)%Z
  else match find0 sub (skipn (Z.to_nat start') s) with
       | Some i => (start' + Z.of_nat i)%Z
       | None => (-1)%Z
       end.

(** [s.replace(old, new)] for a non-empty [old]: left to right, every
    occurrence that does not overlap an earlier one is replaced.  [skip]
    counts the characters of a matched occurrence still to be dropped. *)
Fixpoint replace_from (old new : text) (skip : nat) (s : text) : text :=
  match s with
  | [] => []
  | c :: s' =>
      match skip with
      | S k => replace_from old new k s'
      | O =>
          if startswith s old
          then new ++ replace_from old new (length old - 1) s'
          else c :: replace_from old new 0 s'
      end
  end.

(** [s.replace(old, new)]; with an empty [old], Python puts [new] before
    every character and at the end. *)
Definition replace (s old new : text) : text :=
  match old with
  | [] => new ++ flat_map (fun c => c :: new) s
  | _ :: _ => replace_from old new 0 s
  end.

(** [sep.join(parts)] *)
Fixpoint join (sep : text) (parts : list text) : text :=
  match parts with
  | [] => []
  | [p] => p
  | p :: ps => p ++ sep ++ join sep ps
  end.

(** [s.split(sep, 1)]: at most one cut, at the leftmost occurrence. *)
Definition split1 (s sep : text) : list text :=
  match find0 sep s with
  | Some i => [firstn i s; skipn (i + length sep) s]
  | None => [s]
  end.

(** [s.split(sep)] for a non-empty [sep]; [cur] holds the characters of the
    current piece, last one first. *)
Fixpoint split_from (sep : text) (skip : nat) (cur : text) (s : text)
  : list text :=
  match s with
  | [] => [rev cur]
  | c :: s' =>
      match skip with
      | S k => split_from sep k cur s'
      | O =>
          if startswith s sep
          then rev cur :: split_from sep (length sep - 1) [] s'
          else split_from sep 0 (c :: cur) s'
      end
  end.

Definition split (s sep : text) : list text := split_from sep 0 [] s.

End PyStr.

(** ** Exceptions *)

Inductive exn : Set :=
| ImportError | NameError | IndexError | KeyError | AttributeError
| IOError.

Inductive result (A : Type) : Type :=
| Ok (a : A)
| Raise (e : exn).
Arguments Ok {A} a.
Arguments Raise {A} e.

Definition bind {A B : Type} (r : result A) (k : A -> result B) : result B :=
  match r with
  | Ok a => k a
  | Raise e => Raise e
  end.

Notation "x <- c ;; k" := (bind c (fun x => k))
  (at level 61, c at next level, right associativity).

(** [xs[i]] on a list. *)
Definition getitem {A : Type} (xs : list A) (i : nat) : result A :=
  match nth_error xs i with
  | Some a => Ok a
  | None => Raise IndexError
  end.

(** [o.name] for an attribute that the object may lack. *)
Definition getattr {A : Type} (o : option A) : result A :=
  match o with
  | Some a => Ok a
  | None => Raise AttributeError
  end.

(** ** The interpreter's environment and the module's imports *)

Module Probe.

(** What the installation offers: which modules can be imported, and the
    integer entries of the tuple [IPython.version_info] (the first one and
    the rest), which has a meaning only where [IPython] can be imported.
    The string that closes the real tuple is left out, and with it a
    comparison that gets as far as that entry. *)
Record pyenv : Type := {
  importable : string -> bool;
  version_info : Z * list Z
}.

Definition version_major (env : pyenv) : Z := fst (version_info env).
Definition version_tuple (env : pyenv) : list Z :=
  fst (version_info env) :: snd (version_info env).

(** The global names of the module that are bound. *)
Definition globals := list string.

Definition bound (name : string) (g : globals) : bool :=
  existsb (String.eqb name) g.

(** A run of import statements, each one [(module, name bound)]: the first
    module that is missing raises [ImportError]; the names bound before it
    stay bound. *)
Fixpoint run_imports (env : pyenv) (imports : list (string * string))
  (g : globals) : globals * option exn :=
  match imports with
  | [] => (g, None)
  | (m, name) :: rest =>
      if importable env m then run_imports env rest (name :: g)
      else (g, Some ImportError)
  end.

(** The import statements of the module's [try] block (lines 12-39), which
    depend on the major version once [IPython] itself is imported. *)
Definition toplevel_imports (major : Z) : list (string * string) :=
  [("IPython", "IPython"); ("IPython", "get_ipython");
   ("IPython.display", "HTML")]%string
  ++ (if (major <=? 3)%Z
      then [("IPython.config", "Config");
            ("IPython.nbconvert", "HTMLExporter");
            ("IPython.nbconvert", "PythonExporter")]%string
      else [("traitlets.config", "Config");
            ("nbconvert", "HTMLExporter");
            ("nbconvert", "PythonExporter")]%string)
  ++ (if (major <=? 2)%Z
      then [("IPython.nbformat", "current")]%string
      else if (major =? 3)%Z
           then [("IPython.nbformat", "nbformat")]%string
           else [("nbformat", "nbformat")]%string).

(** The module body, lines 11-43: the [try] block, then [read_nb] where
    the imports went through, or the stub [get_ipython] where one failed.
    ([numpy], imported outside the [try], is taken to be installed: without
    it the module does not load at all.) *)
Definition module_init (env : pyenv) : globals :=
  match run_imports env (toplevel_imports (version_major env)) [] with
  | (g, None) => "read_nb"%string :: g
  | (g, Some _) => "get_ipython"%string :: g
  end.

(** [a >= b] on tuples of integers. *)
Fixpoint tuple_geb (a b : list Z) : bool :=
  match a, b with
  | _, [] => true
  | [], _ :: _ => false
  | x :: a', y :: b' =>
      if (y <? x)%Z then true
      else if (x <? y)%Z then false
      else tuple_geb a' b'
  end.

(** [check_ipy_version(min_version)], lines 46-51; its [import IPython] is
    the function's own. *)
Definition check_ipy_version (env : pyenv) (min_version : list Z)
  : result bool :=
  match
    (if importable env "IPython"%string
     then Ok (tuple_geb (version_tuple env) min_version)
     else Raise ImportError)
  with
  | Raise ImportError => Ok false
  | r => r
  end.

(** [has_ipynb_widgets()], lines 54-74.  The name [IPython] is the module's
    global: reading it where it is unbound raises [NameError], for which
    the [try] has no handler.  The two [assert]s hold of any module that
    was imported. *)
Definition has_ipynb_widgets (env : pyenv) (g : globals) : result bool :=
  let body : result unit :=
    if bound "IPython"%string g then
      let imports :=
        if (version_major env <=? 3)%Z
        then [("IPython.html.widgets", "ipywidgets");
              ("IPython.utils.traitlets", "traitlets")]%string
        else [("ipywidgets", "ipywidgets");
              ("traitlets", "traitlets")]%string in
      match run_imports env imports [] with
      | (_, None) => Ok tt
      | (_, Some e) => Raise e
      end
    else Raise NameError in
  match body with
  | Raise ImportError => Ok false
  | Raise e => Raise e
  | Ok _ => Ok true
  end.

End Probe.

(** ** Notebook documents *)

Record cell : Type := {
  cell_type : text;
  cell_source : text
}.

Record worksheet : Type := {
  ws_cells : list cell
}.

(** A notebook node has [nbformat]; the older schemas carry [worksheets],
    the newer ones [cells].  Below these two containers the nodes are taken
    as the schema has them: a worksheet with its [cells], a cell with its
    [cell_type]. *)
Record notebook : Type := {
  nbformat : Z;
  worksheets : option (list worksheet);
  cells : option (list cell)
}.

(** The cells a generator yields, in the order it yields them (lines
    252-254). *)
Fixpoint yield_matching (cs : list cell) (ct : text) : list cell :=
  match cs with
  | [] => []
  | c :: rest =>
      if text_eqb (cell_type c) ct
      then c :: yield_matching rest ct
      else yield_matching rest ct
  end.

(** [iter_cells(nb, cell_type)], lines 244-254. *)
Definition iter_cells (nb : notebook) (ct : text) : result (list cell) :=
  cs <- (if (nbformat nb <=? 3)%Z
         then wss <- getattr (worksheets nb) ;;
              Ok (fold_left (fun acc ws => acc ++ ws_cells ws) wss [])
         else getattr (cells nb)) ;;
  Ok (yield_matching cs ct).

(** The default of the [cell_type] argument. *)
Definition code : text := lit "code".

(** ** The world: files and the [uuid] generator *)

Definition payload := list Byte.byte.

(** What is written is text, through a UTF-8 text handle, or bytes,
    through a binary one. *)
Inductive content : Type :=
| TextFile (t : text)
| BinaryFile (b : payload).

(** What the functions do to the outside is kept as the list of the writes
    that went through, oldest first: the path as it was given to [open],
    and what was written.  Which file a path names (two spellings may name
    one file) is left to the operating system.  [can_write] tells for
    which paths opening for writing and the write go through: it does not
    where the directory is missing or the path may not be written.
    [uuid_draws] counts the calls of [uuid.uuid4]. *)
Record world : Type := {
  written : list (text * content);
  uuid_draws : nat;
  can_write : text -> bool
}.

(** The world after a write that went through. *)
Definition record_write (path : text) (c : content) (w : world) : world :=
  {| written := written w ++ [(path, c)];
     uuid_draws := uuid_draws w;
     can_write := can_write w |}.

(** [with open(path, 'w') as f: f.write(c)]; [open] raises where the path
    cannot be written. *)
Definition write_file (path : text) (c : content) (w : world)
  : result world :=
  if can_write w path then Ok (record_write path c w) else Raise IOError.

(** [os.path.join(a, b)] as [posixpath] has it: an absolute [b] wins, and
    a separator is put in unless [a] is empty or ends with one. *)
Definition path_join (a b : text) : text :=
  if PyStr.startswith b (lit "/") then b
  else match rev a with
       | [] => a ++ b
       | c :: _ => if Ascii.eqb c "/"%char then a ++ b else a ++ lit "/" ++ b
       end.

(** The auxiliary output of an exporter; [outputs] is the dictionary from
    output identifier to binary payload, in its iteration order. *)
Record resources : Type := {
  outputs : list (text * payload)
}.

(** [d[k]] *)
Fixpoint dict_get (d : list (text * payload)) (k : text) : result payload :=
  match d with
  | [] => Raise KeyError
  | (k', v) :: d' => if text_eqb k' k then Ok v else dict_get d' k
  end.

(** [list(d)]: the keys, in iteration order. *)
Definition dict_keys (d : list (text * payload)) : list text := map fst d.

Definition dq : ascii := Ascii.ascii_of_nat 34.

Module Convert.

Import PyStr.

(** *** Script export *)

Definition needle : text := lit "get_ipython()".

(** One turn of the loop of lines 168-171. *)
Definition strip_step (body : text) : text :=
  let ind0 := find body needle 0 in
  let ind1 := find body [nl] ind0 in
  slice_to body ind0 ++ slice_from body (ind1 + 1).

(** The loop of lines 168-171, with at most [fuel] turns: [None] when the
    condition still holds after them. *)
Fixpoint strip_loop (fuel : nat) (body : text) : option text :=
  if contains needle body then
    match fuel with
    | O => None
    | S fuel' => strip_loop fuel' (strip_step body)
    end
  else Some body.

(** The statement that line 174 appends. *)
Definition show_call : text := [nl] ++ lit "plt.show()" ++ [nl].

(** Lines 173-174. *)
Definition add_show (body : text) : text :=
  if contains (lit "plt") body then body ++ show_call else body.

(** Lines 176-178 of [export_py], 225-227 of [export_html]. *)
Definition save (dest_path : option text) (t : text) (w : world)
  : result world :=
  match dest_path with
  | Some p => write_file p (TextFile t) w
  | None => Ok w
  end.

(** *** HTML export *)

Definition bad_anywhere : list text :=
  [lit "navbar"; lit "body{"; lit "alert{"; lit "uneditable-input{";
   lit "collapse{"]
  ++ map (fun i => lit "h" ++ lit (NilEmpty.string_of_uint (Nat.to_uint (i + 1)))
                   ++ lit "{")
         (seq 0 6).

Definition bad_beginning : list text := [lit "pre{"; lit "p{margin"].

(** Lines 194-213: the CSS patches and the line filter. *)
Definition patch_header (header : text) : text :=
  let header :=
    replace header (lit "<style")
            (lit "<style scoped=" ++ [dq] ++ lit "scoped" ++ [dq]) in
  let header :=
    replace header
            (lit "body {" ++ [nl] ++ lit "  overflow: visible;" ++ [nl]
             ++ lit "  padding: 8px;" ++ [nl] ++ lit "}" ++ [nl])
            [] in
  let header := replace header (lit "code,pre{") (lit "code{") in
  let header_lines :=
    filter (fun x =>
              negb (existsb (fun s => startswith x s) bad_beginning)
              && negb (existsb (fun s => contains s x) bad_anywhere))
           (split header [nl]) in
  join [nl] header_lines.

(** [output.split(opening, 1)[1].split(closing, 1)[0]], as on lines 191
    and 192. *)
Definition fragment (output opening closing : text) : result text :=
  after <- getitem (split1 output opening) 1 ;;
  getitem (split1 after closing) 0.

(** Lines 215-220. *)
Definition wrap (header body : text) : text :=
  join [nl] [lit "<div class=" ++ [dq] ++ lit "ipynotebook" ++ [dq] ++ lit ">";
             header; body; lit "</div>"].

Section Toolchain.

(** The collaborators: the two exporters' [from_notebook_node], and the
    value [uuid.uuid4().hex] takes at its n-th call. *)
Variable PythonExporter : notebook -> text * resources.
Variable HTMLExporter : notebook -> text * resources.
Variable uuid4_hex : nat -> text.

(** [export_py(nb, dest_path)], lines 159-179. *)
Definition export_py (fuel : nat) (nb : notebook) (dest_path : option text)
  (w : world) : option (result (text * world)) :=
  let '(body, _) := PythonExporter nb in
  match strip_loop fuel body with
  | None => None
  | Some body =>
      let body := add_show body in
      Some (w' <- save dest_path body w ;; Ok (body, w'))
  end.

(** The loop of lines 234-240 over the keys still to visit; the file is
    opened before the payload is looked up. *)
Fixpoint relocate (outs : list (text * payload)) (keys : list text)
  (image_dir image_rel_dir my_uuid html_out : text) (w : world)
  : result (text * world) :=
  match keys with
  | [] => Ok (html_out, w)
  | output :: keys' =>
      let fname := my_uuid ++ output in
      let new_path := path_join image_dir fname in
      let new_rel_path := path_join image_rel_dir fname in
      let html_out := replace html_out output new_rel_path in
      if can_write w new_path then
        data <- dict_get outs output ;;
        relocate outs keys' image_dir image_rel_dir my_uuid html_out
                 (record_write new_path (BinaryFile data) w)
      else Raise IOError
  end.

(** [export_images(resources, image_dir, image_rel_dir, html_out)], lines
    231-241. *)
Definition export_images (res : resources)
  (image_dir image_rel_dir html_out : text) (w : world)
  : result (text * world) :=
  let my_uuid := uuid4_hex (uuid_draws w) in
  let w := {| written := written w; uuid_draws := S (uuid_draws w);
              can_write := can_write w |} in
  relocate (outputs res) (dict_keys (outputs res))
           image_dir image_rel_dir my_uuid html_out w.

(** [export_html(nb, dest_path, image_dir, image_rel_dir)], lines
    182-228. *)
Definition export_html (nb : notebook)
  (dest_path image_dir image_rel_dir : option text) (w : world)
  : result (text * world) :=
  let '(output, res) := HTMLExporter nb in
  header <- fragment output (lit "<head>") (lit "</head>") ;;
  body <- fragment output (lit "<body>") (lit "</body>") ;;
  let header := patch_header header in
  let html_out := wrap header body in
  relocated <-
    match image_dir, image_rel_dir with
    | Some d, Some r => export_images res d r html_out w
    | _, _ => Ok (html_out, w)
    end ;;
  let '(html_out, w) := relocated in
  w' <- save dest_path html_out w ;;
  Ok (html_out, w').

End Toolchain.

End Convert.

(** ** Sample collaborators and documents *)

Module Sample.

(** A world where nothing was written yet, no identifier was drawn yet,
    and every path can be written. *)
Definition empty_world : world :=
  {| written := []; uuid_draws := 0; can_write := fun _ => true |}.

(** The same, where no path can be written. *)
Definition closed_world : world :=
  {| written := []; uuid_draws := 0; can_write := fun _ => false |}.

Definition no_resources : resources := {| outputs := [] |}.

(** An exporter that renders every notebook as [t], with resources [r]. *)
Definition renders (t : text) (r : resources) : notebook -> text * resources :=
  fun _ => (t, r).

(** A generator that always draws the same identifier. *)
Definition fixed_uuid : nat -> text :=
  fun _ => lit "0123456789abcdef0123456789abcdef".

(** The resources of an export with one extracted image. *)
Definition one_image : resources :=
  {| outputs := [(lit "output_0_0.png", [Byte.x89; Byte.x50])] |}.

(** The same with a second output, of which the HTML text will not speak. *)
Definition two_images : resources :=
  {| outputs := [(lit "output_0_0.png", [Byte.x89; Byte.x50]);
                 (lit "unused.png", [Byte.x00])] |}.

(** Where the image of [one_image] goes under the directory [img], and the
    world after that relocation from [empty_world]. *)
Definition one_image_path : text :=
  lit "img/0123456789abcdef0123456789abcdefoutput_0_0.png".

Definition one_image_world : world :=
  {| written := [(one_image_path, BinaryFile [Byte.x89; Byte.x50])];
     uuid_draws := 1; can_write := fun _ => true |}.

(** Two outputs, the identifier of the first a part of the second's. *)
Definition nested_images : resources :=
  {| outputs := [(lit "a.png", [Byte.x00]); (lit "ba.png", [Byte.x01])] |}.

(** Two outputs, the identifier of the second to be found in the new path
    of the first once the relative directory is [rel]. *)
Definition crossing_images : resources :=
  {| outputs := [(lit "x.png", [Byte.x00]); (lit "=rel", [Byte.x01])] |}.

Definition code_cell (src : string) : cell :=
  {| cell_type := lit "code"; cell_source := lit src |}.

Definition markdown_cell (src : string) : cell :=
  {| cell_type := lit "markdown"; cell_source := lit src |}.

(** A document of the newer schema. *)
Definition nb4 : notebook :=
  {| nbformat := 4; worksheets := None;
     cells := Some [code_cell "a"; markdown_cell "b"; code_cell "c"] |}.

(** A document of the older schema, its cells on two worksheets. *)
Definition nb3 : notebook :=
  {| nbformat := 3;
     worksheets :=
       Some [ {| ws_cells := [code_cell "a"; markdown_cell "b"] |};
              {| ws_cells := [code_cell "c"] |} ];
     cells := None |}.

(** An installation without [IPython]. *)
Definition bare_env : Probe.pyenv :=
  {| Probe.importable := fun _ => false; Probe.version_info := (0%Z, []) |}.

(** An installation with a recent [IPython] and no widget package. *)
Definition env_no_widgets : Probe.pyenv :=
  {| Probe.importable := fun m =>
       existsb (String.eqb m)
               ["IPython"; "IPython.display"; "traitlets.config"; "nbconvert";
                "nbformat"; "traitlets"]%string;
     Probe.version_info := (5%Z, [1%Z; 0%Z]) |}.

End Sample.

(** ** Predicates used to state the properties *)

Module Spec.

Import PyStr.

(** [sub] occurs in [s] at index [i]. *)
Definition occ (sub s : text) (i : nat) : Prop :=
  exists pre post, s = pre ++ sub ++ post /\ length pre = i.

(** No occurrence of [sub] in [pre ++ x] can begin inside [pre], whatever
    [x] is: no non-empty end of [pre] begins with [sub] or is a beginning
    of [sub]. *)
Fixpoint safe (sub pre : text) : bool :=
  match pre with
  | [] => true
  | _ :: pre' =>
      negb (startswith pre sub) && negb (startswith sub pre) && safe sub pre'
  end.

(** The text ends with a newline. *)
Definition ends_nl (s : text) : Prop := exists s0, s = s0 ++ [nl].

(** The number of newlines of a text. *)
Definition count_nl (s : text) : nat := count_occ ascii_dec s nl.

(** Every occurrence of [get_ipython()] has a newline somewhere after it. *)
Definition followed (body : text) : Prop :=
  forall pre post, body = pre ++ Convert.needle ++ post -> In nl post.

(** The indices at which [sub] occurs in [s]. *)
Definition occurrences (sub s : text) : list nat :=
  filter (fun k => startswith (skipn k s) sub) (seq 0 (S (length s))).

(** [followed], as a test. *)
Definition followedb (body : text) : bool :=
  forallb (fun k => existsb (Ascii.eqb nl)
                            (skipn (k + length Convert.needle) body))
          (occurrences Convert.needle body).

(** Some occurrence of [get_ipython()] has no newline after it. *)
Definition stuck (body : text) : Prop :=
  exists pre post, body = pre ++ Convert.needle ++ post /\ ~ In nl post.

(** [s'] is [s] with occurrences of [old] exchanged for [new], and nothing
    else changed: [s] is pieces free of [old] put together with [old], and
    [s'] the same pieces put together with [new]. *)
Definition replaced_all (s old new s' : text) : Prop :=
  exists pieces,
    s = join old pieces /\ s' = join new pieces /\
    (old <> [] -> Forall (fun p => contains old p = false) pieces).

(** [h'] comes from [h] by one such exchange per key, in the order of
    [keys], the new text of key [o] being [new_of o]. *)
Inductive rewritten (new_of : text -> text) : list text -> text -> text -> Prop :=
| rewritten_nil (h : text) : rewritten new_of [] h h
| rewritten_cons (o : text) (keys : list text) (h h1 h' : text) :
    replaced_all h o (new_of o) h1 ->
    rewritten new_of keys h1 h' ->
    rewritten new_of (o :: keys) h h'.

(** The text whose lines are [ls], each one closed by a newline. *)
Definition unlines_text (ls : list text) : text :=
  concat (map (fun l => l ++ [nl]) ls).

(** The line holds a [get_ipython()]. *)
Definition has_call (l : text) : bool := contains Convert.needle l.

(** A line of a script in which [get_ipython()] only occurs at the start
    of lines: it has no newline, and no call unless it begins with one. *)
Definition call_at_start (l : text) : Prop :=
  ~ In nl l /\
  (contains Convert.needle l = false \/ startswith l Convert.needle = true).

(** The test of lines 210-212 on a line of the header. *)
Definition kept_line (x : text) : bool :=
  negb (existsb (fun s => startswith x s) Convert.bad_beginning)
  && negb (existsb (fun s => contains s x) Convert.bad_anywhere).

(** The text that lines 191-220 of [export_html] build from the rendered
    output, before any image is relocated. *)
Definition fragments_html (output : text) : result text :=
  header <- Convert.fragment output (lit "<head>") (lit "</head>") ;;
  body <- Convert.fragment output (lit "<body>") (lit "</body>") ;;
  Ok (Convert.wrap (Convert.patch_header header) body).

(** The writes of [export_images]: one per entry of the dictionary, in
    its order, of the payload to the joined path of [image_dir] and the
    identifier behind the drawn [my_uuid]. *)
Definition image_writes (image_dir my_uuid : text)
  (outs : list (text * payload)) : list (text * content) :=
  map (fun e => (path_join image_dir (my_uuid ++ fst e), BinaryFile (snd e)))
      outs.

(** The write of the text to the destination path, if there is one. *)
Definition dest_write (dest_path : option text) (t : text)
  : list (text * content) :=
  match dest_path with
  | Some p => [(p, TextFile t)]
  | None => []
  end.

End Spec.

(** * Properties *)

(** ** Facts about the string methods *)

Module PyStrFacts.

Import PyStr.

Import Spec.

Lemma startswith_app (p t : text) : startswith (p ++ t) p = true.
Proof.
  induction p as [|c p IH]; simpl; [reflexivity|].
  now rewrite Ascii.eqb_refl.
Qed.

Lemma startswith_inv (p s : text) :
  startswith s p = true -> exists t, s = p ++ t.
Proof.
  revert s; induction p as [|c p IH]; intros s H; simpl in *.
  - now exists s.
  - destruct s as [|d s]; [discriminate|].
    destruct (Ascii.eqb c d) eqn:E; [|discriminate].
    apply Ascii.eqb_eq in E; subst d.
    destruct (IH _ H) as [t ->]. now exists t.
Qed.

Lemma startswith_iff (p s : text) :
  startswith s p = true <-> exists t, s = p ++ t.
Proof.
  split; [apply startswith_inv|].
  intros [t ->]. apply startswith_app.
Qed.

Lemma startswith_false (p s : text) :
  startswith s p = false <-> forall t, s <> p ++ t.
Proof.
  split.
  - intros H t ->. now rewrite startswith_app in H.
  - intros H. destruct (startswith s p) eqn:E; [|reflexivity].
    apply startswith_inv in E as [t ->]. now destruct (H t).
Qed.

Lemma occ_0 (sub s : text) : occ sub s 0 <-> startswith s sub = true.
Proof.
  rewrite startswith_iff. split.
  - intros (pre & post & -> & Hl).
    destruct pre; [|discriminate]. now exists post.
  - intros [t ->]. now exists [], t.
Qed.

Lemma occ_S (sub : text) (c : ascii) (s : text) (i : nat) :
  occ sub (c :: s) (S i) <-> occ sub s i.
Proof.
  split.
  - intros (pre & post & E & Hl).
    destruct pre as [|d pre]; [discriminate|].
    injection E as -> ->. injection Hl as Hl. now exists pre, post.
  - intros (pre & post & -> & Hl). exists (c :: pre), post.
    simpl. now rewrite Hl.
Qed.

Lemma occ_nil (sub : text) (i : nat) : occ sub [] i -> sub = [] /\ i = 0.
Proof.
  intros (pre & post & E & Hl). symmetry in E.
  apply app_eq_nil in E as [-> E]. apply app_eq_nil in E as [-> _].
  now subst.
Qed.

Lemma occ_bound (sub s : text) (i : nat) :
  occ sub s i -> i + length sub <= length s.
Proof.
  intros (pre & post & -> & <-). rewrite !length_app. lia.
Qed.

Lemma find0_None (sub s : text) :
  find0 sub s = None <-> forall j, ~ occ sub s j.
Proof.
  induction s as [|c s IH]; cbn [find0].
  - destruct (startswith [] sub) eqn:E.
    + split; [discriminate|]. intros H. apply occ_0 in E. now apply H in E.
    + split; [|reflexivity]. intros _ j Hj.
      apply occ_nil in Hj as [-> _]. discriminate.
  - destruct (startswith (c :: s) sub) eqn:E.
    + split; [discriminate|]. intros H. apply occ_0 in E. now apply H in E.
    + destruct (find0 sub s) as [k|]; simpl.
      * split; [discriminate|]. intros H.
        assert (N : forall j, ~ occ sub s j)
          by (intros j Hj; apply (H (S j)); now apply occ_S).
        apply IH in N. discriminate.
      * split; [|reflexivity]. intros _ [|j] Hj.
        -- apply occ_0 in Hj. congruence.
        -- apply occ_S in Hj. now apply (proj1 IH eq_refl j).
Qed.

(** [find0] returns the leftmost occurrence. *)
Lemma find0_Some (sub s : text) (i : nat) :
  find0 sub s = Some i <->
  occ sub s i /\ forall j, occ sub s j -> i <= j.
Proof.
  revert i; induction s as [|c s IH]; intros i.
  - cbn [find0]. destruct (startswith [] sub) eqn:E.
    + split.
      * intros [= <-]. split; [now apply occ_0|intros; lia].
      * intros [H _]. apply occ_nil in H as [_ ->]. reflexivity.
    + split; [discriminate|].
      intros [H _]. apply occ_nil in H as [-> _]. discriminate.
  - cbn [find0]. destruct (startswith (c :: s) sub) eqn:E.
    + split.
      * intros [= <-]. split; [now apply occ_0|intros; lia].
      * intros [_ H]. apply occ_0 in E. apply H in E.
        f_equal. lia.
    + destruct (find0 sub s) as [k|] eqn:F; simpl.
      * destruct (proj1 (IH k) eq_refl) as [Hk Hmin]. split.
        -- intros [= <-]. split; [now apply occ_S|].
           intros [|j] Hj.
           ++ apply occ_0 in Hj. congruence.
           ++ apply occ_S in Hj. apply Hmin in Hj. lia.
        -- intros [Hi Hmin']. destruct i as [|i].
           ++ apply occ_0 in Hi. congruence.
           ++ apply occ_S in Hi. f_equal. f_equal.
              apply Hmin in Hi.
              assert (S i <= S k) by (apply Hmin'; now apply occ_S).
              lia.
      * split; [discriminate|]. intros [Hi _]. destruct i as [|i].
        -- apply occ_0 in Hi. congruence.
        -- apply occ_S in Hi. now destruct (proj1 (find0_None sub s) F i).
Qed.

Lemma contains_true (sub s : text) :
  contains sub s = true <-> exists pre post, s = pre ++ sub ++ post.
Proof.
  unfold contains. destruct (find0 sub s) as [i|] eqn:F.
  - apply find0_Some in F as [(pre & post & E & _) _].
    split; [eauto|reflexivity].
  - split; [discriminate|]. intros (pre & post & E).
    destruct (proj1 (find0_None sub s) F (length pre)). now exists pre, post.
Qed.

Lemma contains_false (sub s : text) :
  contains sub s = false <-> forall pre post, s <> pre ++ sub ++ post.
Proof.
  split.
  - intros H pre post E.
    assert (contains sub s = true) by (apply contains_true; eauto).
    congruence.
  - intros H. destruct (contains sub s) eqn:E; [|reflexivity].
    apply contains_true in E as (pre & post & E). now destruct (H pre post).
Qed.

Lemma contains_find0 (sub s : text) :
  contains sub s = true -> exists i, find0 sub s = Some i.
Proof. unfold contains. destruct (find0 sub s); [eauto|discriminate]. Qed.

(** Two lists that begin the same list are comparable. *)
Lemma app_eq_app_le {A : Type} (x y u v : list A) :
  x ++ y = u ++ v -> length x <= length u ->
  exists l, u = x ++ l /\ y = l ++ v.
Proof.
  revert u; induction x as [|a x IH]; intros u E L; simpl in *.
  - exists u. now split.
  - destruct u as [|b u]; [simpl in L; lia|].
    injection E as -> E. simpl in L.
    destruct (IH u E) as (l & -> & ->); [lia|]. now exists l.
Qed.

Lemma occ_app_r (sub pre x : text) (j : nat) :
  occ sub x j -> occ sub (pre ++ x) (length pre + j).
Proof.
  intros (a & b & -> & <-). exists (pre ++ a), b.
  now rewrite length_app, <- app_assoc.
Qed.

Lemma occ_app_l (sub s t : text) (j : nat) :
  occ sub s j -> occ sub (s ++ t) j.
Proof.
  intros (a & b & -> & <-). exists a, (b ++ t).
  now rewrite <- !app_assoc.
Qed.

Lemma occ_app_skip (sub pre x : text) (j : nat) :
  occ sub (pre ++ x) j -> length pre <= j ->
  occ sub x (j - length pre).
Proof.
  intros (a & b & E & <-) L.
  destruct (app_eq_app_le _ _ _ _ E L) as (l & -> & ->).
  exists l, b. rewrite length_app. split; [reflexivity|lia].
Qed.

Lemma occ_app_within (sub s t : text) (j : nat) :
  occ sub (s ++ t) j -> j + length sub <= length s -> occ sub s j.
Proof.
  intros (a & b & E & <-) L.
  symmetry in E. rewrite app_assoc in E.
  apply app_eq_app_le in E as (l & -> & _);
    [|rewrite length_app; lia].
  exists a, l. now rewrite <- app_assoc.
Qed.

(** The leftmost occurrence in [s] stays the leftmost one in [s ++ t]. *)
Lemma find0_app_l (sub s t : text) (i : nat) :
  find0 sub s = Some i -> find0 sub (s ++ t) = Some i.
Proof.
  intros F. apply find0_Some in F as [Hi Hmin]. apply find0_Some. split.
  - now apply occ_app_l.
  - intros j Hj. destruct (Nat.le_gt_cases i j) as [|L]; [assumption|].
    apply Hmin. apply occ_app_within with t; [assumption|].
    apply occ_bound in Hi. lia.
Qed.

Lemma prefix_comparable (a x p : text) :
  startswith (a ++ x) p = true ->
  startswith a p = true \/ startswith p a = true.
Proof.
  revert p; induction a as [|c a IH]; intros p H.
  - right. reflexivity.
  - destruct p as [|d p]; [now left|]. simpl in *.
    destruct (Ascii.eqb d c) eqn:E; [|discriminate].
    apply Ascii.eqb_eq in E; subst d. rewrite Ascii.eqb_refl.
    now apply IH.
Qed.

Lemma safe_occ (sub pre x : text) (j : nat) :
  safe sub pre = true -> occ sub (pre ++ x) j -> length pre <= j.
Proof.
  revert j; induction pre as [|c pre IH]; intros j Hs H; simpl; [lia|].
  cbn [safe] in Hs. apply andb_prop in Hs as [Hs S3].
  apply andb_prop in Hs as [S1 S2].
  destruct j as [|j].
  - apply occ_0 in H. apply prefix_comparable in H as [H|H].
    + rewrite H in S1. discriminate.
    + rewrite H in S2. discriminate.
  - simpl in H. apply occ_S in H. apply IH in H; [lia|assumption].
Qed.

(** Behind a safe prefix the leftmost occurrence is the one of the rest. *)
Lemma find0_safe (sub pre x : text) :
  safe sub pre = true ->
  find0 sub (pre ++ x) = option_map (Nat.add (length pre)) (find0 sub x).
Proof.
  intros Hs. destruct (find0 sub x) as [i|] eqn:F; simpl.
  - apply find0_Some in F as [Hi Hmin]. apply find0_Some. split.
    + now apply occ_app_r.
    + intros j Hj. pose proof (safe_occ _ _ _ _ Hs Hj) as L.
      apply occ_app_skip in Hj; [|assumption]. apply Hmin in Hj. lia.
  - apply find0_None. intros j Hj. pose proof (safe_occ _ _ _ _ Hs Hj) as L.
    apply occ_app_skip in Hj; [|assumption].
    now apply (proj1 (find0_None sub x) F) in Hj.
Qed.

Lemma contains_safe (sub pre x : text) :
  safe sub pre = true -> contains sub (pre ++ x) = contains sub x.
Proof.
  intros Hs. unfold contains. rewrite find0_safe by assumption.
  now destruct (find0 sub x).
Qed.

(** Searching one character. *)
Lemma find0_char_Some (c : ascii) (s : text) (j : nat) :
  find0 [c] s = Some j <->
  exists mid post, s = mid ++ c :: post /\ length mid = j /\ ~ In c mid.
Proof.
  revert j; induction s as [|d s IH]; intros j; cbn [find0 startswith].
  - split; [discriminate|]. intros (mid & post & E & _).
    now destruct mid.
  - destruct (Ascii.eqb c d) eqn:E.
    + apply Ascii.eqb_eq in E; subst d. split.
      * intros [= <-]. exists [], s. now repeat split.
      * intros (mid & post & E & <- & N). destruct mid as [|e mid];
          [reflexivity|].
        injection E as <- _. destruct N. now left.
    + apply Ascii.eqb_neq in E.
      destruct (find0 [c] s) as [k|]; simpl.
      * destruct (proj1 (IH k) eq_refl) as (mid & post & -> & <- & N). split.
        -- intros [= <-]. exists (d :: mid), post. repeat split.
           intros [->|H]; [now apply E|now apply N].
        -- intros (mid' & post' & E' & <- & N').
           destruct mid' as [|e mid']; [injection E' as ->; now destruct E|].
           injection E' as <- E'. f_equal. simpl. f_equal.
           assert (X : Some (length mid) = Some (length mid')); [|now injection X].
           apply IH. exists mid', post'. repeat split; [assumption|].
           intros H. apply N'. now right.
      * split; [discriminate|]. intros (mid' & post' & E' & <- & N').
        destruct mid' as [|e mid']; [injection E' as ->; now destruct E|].
        injection E' as <- E'. exfalso.
        assert (X : None = Some (length mid')); [|discriminate].
        apply IH. exists mid', post'. repeat split; [assumption|].
        intros H. apply N'. now right.
Qed.

Lemma find0_char_None (c : ascii) (s : text) :
  find0 [c] s = None <-> ~ In c s.
Proof.
  induction s as [|d s IH]; cbn [find0 startswith].
  - split; [intros _ []|reflexivity].
  - destruct (Ascii.eqb c d) eqn:E.
    + apply Ascii.eqb_eq in E; subst d. split; [discriminate|].
      intros H. destruct H. now left.
    + apply Ascii.eqb_neq in E. destruct (find0 [c] s); simpl.
      * split; [discriminate|]. intros H. exfalso.
        assert (X : Some n = None); [|discriminate].
        apply IH. intros H'. apply H. now right.
      * split; [|reflexivity]. intros _ [->|H]; [now apply E|].
        now apply (proj1 IH eq_refl).
Qed.

Lemma find0_char_skip (c : ascii) (a s : text) :
  ~ In c a ->
  find0 [c] (a ++ s) = option_map (Nat.add (length a)) (find0 [c] s).
Proof.
  intros N. destruct (find0 [c] s) as [j|] eqn:F; simpl.
  - apply find0_char_Some in F as (mid & post & -> & <- & N').
    apply find0_char_Some. exists (a ++ mid), post.
    rewrite <- app_assoc, length_app. repeat split.
    intros H. apply in_app_or in H as [H|H]; tauto.
  - apply find0_char_None in F. apply find0_char_None.
    intros H. apply in_app_or in H as [H|H]; tauto.
Qed.

(** The bounds the code computes are never negative: on such bounds the
    slices are [firstn] and [skipn]. *)
Lemma clip_nat (len k : nat) : clip len (Z.of_nat k) = Nat.min len k.
Proof.
  unfold clip. destruct (Z.ltb_spec (Z.of_nat k) 0); lia.
Qed.

Lemma slice_to_nat (s : text) (k : nat) :
  slice_to s (Z.of_nat k) = firstn k s.
Proof.
  unfold slice_to. rewrite clip_nat.
  destruct (Nat.le_gt_cases k (length s)).
  - now rewrite Nat.min_r.
  - rewrite Nat.min_l by lia. now rewrite firstn_all, firstn_all2 by lia.
Qed.

Lemma slice_from_nat (s : text) (k : nat) :
  slice_from s (Z.of_nat k) = skipn k s.
Proof.
  unfold slice_from. rewrite clip_nat.
  destruct (Nat.le_gt_cases k (length s)).
  - now rewrite Nat.min_r.
  - rewrite Nat.min_l by lia. now rewrite skipn_all, skipn_all2 by lia.
Qed.

Lemma find_nat (s sub : text) (k : nat) :
  k <= length s ->
  find s sub (Z.of_nat k) =
  match find0 sub (skipn k s) with
  | Some i => Z.of_nat (k + i)
  | None => (-1)%Z
  end.
Proof.
  intros L. unfold find.
  destruct (Z.ltb_spec (Z.of_nat k) 0); [lia|].
  destruct (Z.ltb_spec (Z.of_nat (length s)) (Z.of_nat k)); [lia|].
  rewrite Nat2Z.id. destruct (find0 sub (skipn k s)); [|reflexivity].
  now rewrite Nat2Z.inj_add.
Qed.

(** *** [replace] *)

Lemma replace_from_skip (old new : text) (k : nat) (s : text) :
  replace_from old new k s = replace_from old new 0 (skipn k s).
Proof.
  revert k; induction s as [|c s IH]; intros [|k]; try reflexivity.
  simpl. apply IH.
Qed.

Lemma replace_from_nil (old new : text) :
  replace_from old new 0 [] = [].
Proof. reflexivity. Qed.

Lemma replace_from_match (old new t : text) :
  old <> [] ->
  replace_from old new 0 (old ++ t) = new ++ replace_from old new 0 t.
Proof.
  intros N. destruct old as [|c old]; [congruence|].
  change ((c :: old) ++ t) with (c :: (old ++ t)).
  cbn [replace_from].
  change (c :: (old ++ t)) with ((c :: old) ++ t).
  rewrite startswith_app. f_equal.
  rewrite replace_from_skip. simpl. rewrite Nat.sub_0_r.
  now rewrite skipn_app, skipn_all, Nat.sub_diag.
Qed.

Lemma replace_from_miss (old new : text) (c : ascii) (s : text) :
  startswith (c :: s) old = false ->
  replace_from old new 0 (c :: s) = c :: replace_from old new 0 s.
Proof. intros H. cbn [replace_from]. now rewrite H. Qed.

(** A text that begins with a part of itself that begins with [old]. *)
Lemma startswith_app_l (s t p : text) :
  startswith s p = true -> startswith (s ++ t) p = true.
Proof.
  intros H. apply startswith_inv in H as [u ->].
  rewrite <- app_assoc. apply startswith_app.
Qed.

Lemma join_cons (sep p q : text) (ps : list text) :
  join sep (p :: q :: ps) = p ++ sep ++ join sep (q :: ps).
Proof. reflexivity. Qed.

(** The pieces between the occurrences that [replace] exchanges. *)
Lemma replace_from_pieces (old new : text) (n : nat) (s : text) :
  old <> [] -> length s <= n ->
  exists p ps,
    s = join old (p :: ps) /\
    replace_from old new 0 s = join new (p :: ps) /\
    Forall (fun q => contains old q = false) (p :: ps) /\
    (ps = [] -> s = p).
Proof.
  intros N. revert s; induction n as [|n IH]; intros s L.
  - destruct s; [|simpl in L; lia]. exists [], []. repeat split.
    constructor; [|constructor].
    apply contains_false. intros pre post E. symmetry in E.
    apply app_eq_nil in E as [_ E]. apply app_eq_nil in E as [E _].
    congruence.
  - destruct s as [|c s]; [apply IH; simpl; lia|].
    destruct (startswith (c :: s) old) eqn:E.
    + apply startswith_inv in E as [t E]. rewrite E.
      assert (Lt : length t <= n).
      { apply (f_equal (@length _)) in E. rewrite length_app in E.
        simpl in E, L. destruct old; [congruence|simpl in E; lia]. }
      destruct (IH t Lt) as (p & ps & E1 & E2 & F & _).
      exists [], (p :: ps). repeat split.
      * rewrite join_cons, <- E1. reflexivity.
      * rewrite replace_from_match by assumption.
        rewrite join_cons, <- E2. reflexivity.
      * constructor; [|assumption].
        apply contains_false. intros pre post E'. symmetry in E'.
        apply app_eq_nil in E' as [_ E']. apply app_eq_nil in E' as [E' _].
        congruence.
      * discriminate.
    + assert (Ls : length s <= n) by (simpl in L; lia).
      destruct (IH s Ls) as (p & ps & E1 & E2 & F & E3).
      exists (c :: p), ps. repeat split.
      * rewrite E1 at 1. now destruct ps.
      * rewrite replace_from_miss by assumption. rewrite E2.
        now destruct ps.
      * apply Forall_cons_iff in F as [Fp Fps]. constructor; [|assumption].
        unfold contains. cbn [find0].
        assert (Ep : startswith (c :: p) old = false).
        { destruct (startswith (c :: p) old) eqn:Ep; [|reflexivity].
          destruct ps as [|q ps].
          - rewrite <- (E3 eq_refl) in Ep. congruence.
          - rewrite E1, join_cons in E.
            apply (startswith_app_l _ (old ++ join old (q :: ps))) in Ep.
            simpl in Ep, E. congruence. }
        rewrite Ep. unfold contains in Fp.
        now destruct (find0 old p).
      * intros ->. now rewrite (E3 eq_refl).
Qed.

Lemma join_cons_ne (sep p : text) (l : list text) :
  l <> [] -> join sep (p :: l) = p ++ sep ++ join sep l.
Proof. destruct l; [congruence|reflexivity]. Qed.

Lemma join_chars (new s : text) :
  join new (map (fun d => [d]) s ++ [[]]) = flat_map (fun d => d :: new) s.
Proof.
  induction s as [|d s IH]; [reflexivity|].
  cbn [map app flat_map]. rewrite join_cons_ne, IH; [reflexivity|].
  now destruct s.
Qed.

Lemma replace_replaced_all (s old new : text) :
  replaced_all s old new (replace s old new).
Proof.
  destruct old as [|c old].
  - assert (Hne : map (fun d : ascii => [d]) s ++ [[]] <> [])
      by now destruct s.
    exists ([] :: map (fun d => [d]) s ++ [[]]). repeat split.
    + rewrite join_cons_ne, join_chars by assumption. simpl.
      induction s as [|d s IH]; [reflexivity|].
      simpl. f_equal. apply IH. now destruct s.
    + rewrite join_cons_ne, join_chars by assumption. reflexivity.
    + congruence.
  - destruct (replace_from_pieces (c :: old) new (length s) s)
      as (p & ps & E1 & E2 & F & _); [discriminate|reflexivity|].
    exists (p :: ps). repeat split; auto.
Qed.

(** Where [old] does not occur, nothing changes. *)
Lemma replace_absent (s old new : text) :
  contains old s = false -> replace s old new = s.
Proof.
  intros H. destruct old as [|c old].
  - unfold contains in H. now destruct s.
  - unfold replace. induction s as [|d s IH]; [reflexivity|].
    unfold contains in H. cbn [find0] in H.
    destruct (startswith (d :: s) (c :: old)) eqn:E; [discriminate|].
    rewrite replace_from_miss by assumption. f_equal. apply IH.
    unfold contains. now destruct (find0 (c :: old) s).
Qed.

(** Where [old] occurs, the result holds [new]. *)
Lemma replace_present (s old new : text) :
  contains old s = true ->
  exists a b, replace s old new = a ++ new ++ b.
Proof.
  intros H. destruct old as [|c old].
  - exists [], (flat_map (fun d => d :: new) s). reflexivity.
  - unfold replace. induction s as [|d s IH].
    + discriminate.
    + destruct (startswith (d :: s) (c :: old)) eqn:E.
      * apply startswith_inv in E as [t ->].
        rewrite replace_from_match by discriminate.
        now exists [], (replace_from (c :: old) new 0 t).
      * rewrite replace_from_miss by assumption.
        unfold contains in H. cbn [find0] in H. rewrite E in H.
        destruct IH as (a & b & ->).
        { unfold contains. now destruct (find0 (c :: old) s). }
        now exists (d :: a), b.
Qed.

End PyStrFacts.

(** ** The loop that strips [get_ipython()] *)

Module StripFacts.

Import PyStr Spec PyStrFacts Convert.

Lemma needle_no_nl : ~ In nl needle.
Proof. unfold needle, lit, nl. simpl. intuition discriminate. Qed.

Lemma needle_last : needle = lit "get_ipython(" ++ [")"%char].
Proof. reflexivity. Qed.

Lemma needle_length : length needle = 13.
Proof. reflexivity. Qed.

Lemma needle_not_nil : needle <> [].
Proof. discriminate. Qed.

(** What one turn computes, given the index of the leftmost occurrence. *)
Lemma strip_step_spec (body : text) (i : nat) :
  find0 needle body = Some i ->
  strip_step body =
  firstn i body ++
  match find0 [nl] (skipn i body) with
  | Some j => skipn (i + j + 1) body
  | None => body
  end.
Proof.
  intros F. unfold strip_step.
  change 0%Z with (Z.of_nat 0). rewrite find_nat by lia.
  cbn [skipn]. rewrite F. cbn [Nat.add].
  assert (L : i <= length body).
  { apply find0_Some in F as [F _]. apply occ_bound in F. lia. }
  rewrite find_nat by assumption. rewrite slice_to_nat. f_equal.
  destruct (find0 [nl] (skipn i body)) as [j|].
  - replace (Z.of_nat (i + j) + 1)%Z with (Z.of_nat (i + j + 1)) by lia.
    apply slice_from_nat.
  - change (-1 + 1)%Z with (Z.of_nat 0). apply slice_from_nat.
Qed.

(** The occurrence is followed by a newline: the turn cuts from the
    occurrence through that newline. *)
Lemma strip_step_cut (pre mid post : text) :
  find0 needle (pre ++ needle ++ mid ++ nl :: post) = Some (length pre) ->
  ~ In nl mid ->
  strip_step (pre ++ needle ++ mid ++ nl :: post) = pre ++ post.
Proof.
  intros F N. rewrite (strip_step_spec _ _ F).
  rewrite firstn_app, firstn_all, Nat.sub_diag. cbn [firstn].
  rewrite app_nil_r. f_equal.
  rewrite skipn_app, skipn_all, Nat.sub_diag. cbn [skipn app].
  assert (F' : find0 [nl] (needle ++ mid ++ nl :: post)
               = Some (length (needle ++ mid))).
  { apply find0_char_Some. exists (needle ++ mid), post.
    rewrite <- app_assoc. repeat split.
    intros H. apply in_app_or in H as [H|H]; [|tauto].
    now apply needle_no_nl. }
  rewrite F'.
  replace (pre ++ needle ++ mid ++ nl :: post)
    with ((pre ++ needle ++ mid ++ [nl]) ++ post)
    by (now rewrite <- !app_assoc).
  rewrite skipn_app.
  assert (E : length (pre ++ needle ++ mid ++ [nl])
              = length pre + length (needle ++ mid) + 1)
    by (rewrite !length_app; simpl; lia).
  rewrite <- E, skipn_all, Nat.sub_diag. reflexivity.
Qed.

(** No newline follows the occurrence: the turn puts the text before the
    occurrence in front of the whole text. *)
Lemma strip_step_grow (pre post : text) :
  find0 needle (pre ++ needle ++ post) = Some (length pre) ->
  ~ In nl post ->
  strip_step (pre ++ needle ++ post) = pre ++ pre ++ needle ++ post.
Proof.
  intros F N. rewrite (strip_step_spec _ _ F).
  rewrite firstn_app, firstn_all, Nat.sub_diag. cbn [firstn].
  rewrite app_nil_r. f_equal.
  rewrite skipn_app, skipn_all, Nat.sub_diag. cbn [skipn app].
  assert (F' : find0 [nl] (needle ++ post) = None).
  { apply find0_char_None. intros H. apply in_app_or in H as [H|H];
      [now apply needle_no_nl|tauto]. }
  now rewrite F'.
Qed.

Lemma first_char (c : ascii) (s : text) :
  In c s -> exists mid post, s = mid ++ c :: post /\ ~ In c mid.
Proof.
  intros H. destruct (find0 [c] s) as [j|] eqn:F.
  - apply find0_char_Some in F as (mid & post & E & _ & N). eauto.
  - apply find0_char_None in F. tauto.
Qed.

(** The two ways a turn can go. *)
Lemma strip_step_cases (body : text) :
  contains needle body = true ->
  exists pre post,
    body = pre ++ needle ++ post /\
    find0 needle body = Some (length pre) /\
    ((~ In nl post /\ strip_step body = pre ++ body) \/
     (exists mid post',
         post = mid ++ nl :: post' /\ ~ In nl mid /\
         strip_step body = pre ++ post')).
Proof.
  intros H. apply contains_find0 in H as [i F].
  destruct (proj1 (find0_Some _ _ _) F) as [(pre & post & E & L) _].
  subst i. exists pre, post. repeat split; try assumption.
  destruct (in_dec ascii_dec nl post) as [I|N].
  - right. apply first_char in I as (mid & post' & -> & N).
    exists mid, post'. repeat split; [assumption|].
    subst body. now apply strip_step_cut.
  - left. split; [assumption|]. subst body. now apply strip_step_grow.
Qed.

Lemma strip_loop_done (n : nat) (body : text) :
  contains needle body = false -> strip_loop n body = Some body.
Proof. intros H. destruct n; simpl; now rewrite H. Qed.

Lemma strip_loop_turn (n : nat) (body : text) :
  contains needle body = true ->
  strip_loop (S n) body = strip_loop n (strip_step body).
Proof. intros H. simpl. now rewrite H. Qed.

Lemma strip_loop_mono (n m : nat) (body r : text) :
  strip_loop n body = Some r -> n <= m -> strip_loop m body = Some r.
Proof.
  revert m body; induction n as [|n IH]; intros m body H L.
  - simpl in H. destruct (contains needle body) eqn:C; [discriminate|].
    injection H as <-. now apply strip_loop_done.
  - destruct (contains needle body) eqn:C.
    + rewrite strip_loop_turn in H by assumption.
      destruct m as [|m]; [lia|].
      rewrite strip_loop_turn by assumption. apply IH; [assumption|lia].
    + rewrite strip_loop_done in * by assumption. assumption.
Qed.

(** When the loop ends, no occurrence is left. *)
Lemma strip_loop_clean (n : nat) (body r : text) :
  strip_loop n body = Some r -> contains needle r = false.
Proof.
  revert body; induction n as [|n IH]; intros body H; simpl in H;
    destruct (contains needle body) eqn:C; try discriminate.
  - now injection H as <-.
  - eauto.
  - now injection H as <-.
Qed.

(** *** The loop that never ends *)

Lemma split_at_char (c : ascii) (x post p y : text) :
  x ++ c :: post = p ++ y -> ~ In c y -> length x <= length p ->
  exists p2, p = x ++ c :: p2 /\ post = p2 ++ y.
Proof.
  intros E N L. destruct (app_eq_app_le _ _ _ _ E L) as (l & -> & E').
  destruct l as [|d l].
  - simpl in E'. subst y. destruct N. now left.
  - injection E' as <- ->. now exists l.
Qed.

Lemma stuck_contains (body : text) :
  stuck body -> contains needle body = true.
Proof. intros (pre & post & E & _). apply contains_true. eauto. Qed.

Lemma stuck_step (body : text) : stuck body -> stuck (strip_step body).
Proof.
  intros St. pose proof (stuck_contains _ St) as C.
  destruct St as (p & r & E & N).
  destruct (strip_step_cases _ C) as (pre & post & E' & F & [[N' ->]|X]).
  - exists (pre ++ p), r. split; [|assumption].
    rewrite E at 1. now rewrite <- app_assoc.
  - destruct X as (mid & post' & -> & Nm & ->).
    assert (L : length pre <= length p).
    { apply find0_Some in F as [_ F]. apply F. now exists p, r. }
    assert (E2 : (pre ++ needle ++ mid) ++ nl :: post' = p ++ needle ++ r)
      by (rewrite <- !app_assoc; congruence).
    apply split_at_char in E2 as (p2 & Ep & ->).
    + exists (pre ++ p2), r. split; [|assumption].
      now rewrite <- app_assoc.
    + intros H. apply in_app_or in H as [H|H];
        [now apply needle_no_nl|tauto].
    + destruct (Nat.le_gt_cases (length (pre ++ needle ++ mid)) (length p))
        as [|G]; [assumption|exfalso].
      symmetry in E2.
      destruct (app_eq_app_le _ _ _ _ E2 (Nat.lt_le_incl _ _ G))
        as (l & El & Er).
      assert (I : In nl (needle ++ r))
        by (rewrite Er; apply in_or_app; right; now left).
      apply in_app_or in I as [I|I]; [now apply needle_no_nl|tauto].
Qed.

Lemma stuck_loop (n : nat) (body : text) :
  stuck body -> strip_loop n body = None.
Proof.
  revert body; induction n as [|n IH]; intros body St;
    pose proof (stuck_contains _ St) as C.
  - simpl. now rewrite C.
  - rewrite strip_loop_turn by assumption. apply IH. now apply stuck_step.
Qed.

(** *** The loop on a text that ends with a newline *)

Lemma count_nl_absent (s : text) : ~ In nl s -> count_nl s = 0.
Proof. intros N. now apply count_occ_not_In. Qed.

Lemma no_occ_before_first (sub pre post : text) :
  sub <> [] ->
  find0 sub (pre ++ sub ++ post) = Some (length pre) ->
  contains sub pre = false.
Proof.
  intros Ne F. apply find0_Some in F as [_ Hmin].
  destruct (contains sub pre) eqn:C; [|reflexivity].
  apply contains_true in C as (a & b & ->).
  assert (O : occ sub ((a ++ sub ++ b) ++ sub ++ post) (length a)).
  { exists a, (b ++ sub ++ post). now rewrite <- !app_assoc. }
  apply Hmin in O. rewrite !length_app in O.
  destruct sub; [congruence|simpl in O; lia].
Qed.

Lemma ends_nl_tail (x y : text) :
  ends_nl (x ++ y) -> y <> [] -> ends_nl y.
Proof.
  intros [s0 E] Ne. destruct (exists_last Ne) as (y0 & c & ->).
  rewrite app_assoc in E. apply app_inj_tail in E as [_ ->].
  now exists y0.
Qed.

Lemma ends_nl_app (x y : text) : ends_nl y -> ends_nl (x ++ y).
Proof. intros [y0 ->]. exists (x ++ y0). now rewrite app_assoc. Qed.

Lemma ends_nl_needle (post : text) :
  ends_nl (needle ++ post) -> In nl post.
Proof.
  intros H. destruct post as [|c post].
  - destruct H as [s0 E]. rewrite app_nil_r, needle_last in E.
    apply app_inj_tail in E as [_ E]. discriminate.
  - apply ends_nl_tail in H as [s0 ->]; [|discriminate].
    apply in_or_app. right. now left.
Qed.

(** On such a text a turn takes away at least one newline, and leaves a
    text that ends with a newline or holds no occurrence. *)
Lemma strip_step_ends_nl (body : text) :
  ends_nl body -> contains needle body = true ->
  (ends_nl (strip_step body) \/ contains needle (strip_step body) = false)
  /\ count_nl (strip_step body) < count_nl body.
Proof.
  intros En C.
  destruct (strip_step_cases _ C) as (pre & post & E & F & [[N _]|X]).
  - exfalso. apply N. apply ends_nl_needle.
    rewrite E in En. apply ends_nl_tail in En; [assumption|].
    discriminate.
  - destruct X as (mid & post' & -> & Nm & ->). split.
    + destruct post' as [|c post'].
      * right. rewrite app_nil_r. rewrite E in F.
        eapply no_occ_before_first; [apply needle_not_nil|eassumption].
      * left. apply ends_nl_app.
        rewrite E in En.
        replace (pre ++ needle ++ mid ++ nl :: c :: post')
          with ((pre ++ needle ++ mid ++ [nl]) ++ c :: post') in En
          by (now rewrite <- !app_assoc).
        apply ends_nl_tail in En; [assumption|discriminate].
    + rewrite E. unfold count_nl. rewrite !count_occ_app.
      rewrite count_occ_cons_eq by reflexivity.
      lia.
Qed.

Lemma strip_loop_ends_nl (n : nat) (body : text) :
  ends_nl body \/ contains needle body = false ->
  count_nl body <= n ->
  exists r, strip_loop n body = Some r.
Proof.
  revert body; induction n as [|n IH]; intros body I L;
    destruct (contains needle body) eqn:C;
    try (exists body; now apply strip_loop_done).
  - destruct I as [En|?]; [|congruence].
    apply (strip_step_ends_nl _ En) in C as [_ C]. lia.
  - rewrite strip_loop_turn by assumption.
    destruct I as [En|?]; [|congruence].
    destruct (strip_step_ends_nl _ En C) as [I' L'].
    apply IH; [assumption|lia].
Qed.

(** *** What is kept in front of an occurrence *)

Lemma safe_stuck (pre x : text) : stuck x -> stuck (pre ++ x).
Proof.
  intros (p & r & -> & N). exists (pre ++ p), r.
  now rewrite <- app_assoc.
Qed.

(** A safe prefix goes through the loop untouched. *)
Lemma strip_loop_safe (pre : text) (n : nat) (x : text) :
  safe needle pre = true ->
  strip_loop n (pre ++ x) = option_map (app pre) (strip_loop n x).
Proof.
  intros Hs. revert x; induction n as [|n IH]; intros x;
    destruct (contains needle x) eqn:C;
    pose proof (contains_safe needle pre x Hs) as C'; rewrite C in C'.
  - simpl. now rewrite C, C'.
  - now rewrite !strip_loop_done by assumption.
  - rewrite !strip_loop_turn by assumption.
    destruct (strip_step_cases _ C) as (a & post & E & F & [[N _]|X]).
    + assert (St : stuck x) by (now exists a, post).
      rewrite (stuck_loop n _ (stuck_step _ St)).
      now rewrite (stuck_loop n _ (stuck_step _ (safe_stuck pre _ St))).
    + destruct X as (mid & post' & -> & Nm & ->).
      rewrite <- IH. f_equal. subst x.
      replace (pre ++ a ++ needle ++ mid ++ nl :: post')
        with ((pre ++ a) ++ needle ++ mid ++ nl :: post')
        by (now rewrite <- app_assoc).
      rewrite strip_step_cut; [now rewrite <- app_assoc| |assumption].
      rewrite <- app_assoc, find0_safe, F by assumption.
      simpl. now rewrite length_app.
  - now rewrite !strip_loop_done by assumption.
Qed.

(** Lines already closed by a newline are stripped on their own. *)
Lemma strip_loop_lines (m : nat) (p p' : text) :
  ends_nl p \/ contains needle p = false ->
  strip_loop m p = Some p' ->
  forall (z : text) (n : nat) (r : text),
    strip_loop n (p ++ z) = Some r -> strip_loop n (p' ++ z) = Some r.
Proof.
  revert p; induction m as [|m IH]; intros p I H z n r Hn;
    destruct (contains needle p) eqn:C;
    try (rewrite strip_loop_done in H by assumption;
         injection H as <-; assumption).
  - simpl in H. rewrite C in H. discriminate.
  - rewrite strip_loop_turn in H by assumption.
    destruct I as [En|?]; [|congruence].
    destruct (strip_step_ends_nl _ En C) as [I' _].
    destruct (strip_step_cases _ C) as (a & post & E & F & [[N _]|X]).
    + exfalso. apply N. apply ends_nl_needle.
      rewrite E in En. apply ends_nl_tail in En; [assumption|discriminate].
    + destruct X as (mid & post' & -> & Nm & Es).
      assert (Cz : contains needle (p ++ z) = true).
      { apply contains_true. exists a, ((mid ++ nl :: post') ++ z).
        rewrite E. now rewrite <- !app_assoc. }
      destruct n as [|n]; [simpl in Hn; rewrite Cz in Hn; discriminate|].
      rewrite strip_loop_turn in Hn by assumption.
      assert (Ez : strip_step (p ++ z) = strip_step p ++ z).
      { rewrite Es. rewrite E.
        replace ((a ++ needle ++ mid ++ nl :: post') ++ z)
          with (a ++ needle ++ mid ++ nl :: post' ++ z)
          by (rewrite <- !app_assoc; reflexivity).
        rewrite strip_step_cut; [now rewrite app_assoc| |assumption].
        replace (a ++ needle ++ mid ++ nl :: post' ++ z)
          with ((a ++ needle ++ mid ++ nl :: post') ++ z)
          by (rewrite <- !app_assoc; reflexivity).
        apply find0_app_l. now rewrite <- E. }
      rewrite Ez in Hn.
      apply strip_loop_mono with n; [|lia].
      now apply (IH (strip_step p)).
Qed.

End StripFacts.

(** ** Script export *)

Module ScriptExport.

Import PyStr Spec PyStrFacts Convert StripFacts Sample.

Lemma followedb_ok (body : text) : followedb body = true -> followed body.
Proof.
  intros H pre post E. unfold followedb in H.
  rewrite forallb_forall in H. specialize (H (length pre)).
  assert (Sk : skipn (length pre) body = needle ++ post)
    by (subst body; now rewrite skipn_app, skipn_all, Nat.sub_diag).
  assert (Sk' : skipn (length pre + length needle) body = post).
  { rewrite Nat.add_comm, <- skipn_skipn, Sk.
    now rewrite skipn_app, skipn_all, Nat.sub_diag. }
  rewrite Sk' in H.
  assert (I : In (length pre) (occurrences needle body)).
  { apply filter_In. split.
    - apply in_seq. subst body. rewrite length_app. lia.
    - rewrite Sk. apply startswith_app. }
  apply H in I. apply existsb_exists in I as (c & I & Ec).
  apply Ascii.eqb_eq in Ec. now subst c.
Qed.

(** An occurrence cannot lie across a character that [sub] does not have. *)
Lemma contains_across (sub x y : text) (c : ascii) :
  ~ In c sub -> contains sub (x ++ c :: y) = true ->
  contains sub x = true \/ contains sub y = true.
Proof.
  intros N H. apply contains_true in H as (a & b & E).
  destruct (Nat.le_gt_cases (length x) (length a)) as [L|L].
  - destruct (app_eq_app_le _ _ _ _ E L) as (l & -> & E').
    destruct l as [|d l].
    + destruct sub as [|d sub].
      * left. apply contains_true. exists [], x. reflexivity.
      * injection E' as <- _. destruct N. now left.
    + injection E' as <- ->. right. apply contains_true. eauto.
  - symmetry in E.
    destruct (app_eq_app_le _ _ _ _ E (Nat.lt_le_incl _ _ L))
      as (l & -> & E').
    destruct (Nat.le_gt_cases (length sub) (length l)) as [L'|L'].
    + destruct (app_eq_app_le _ _ _ _ E' L') as (l2 & -> & _).
      left. apply contains_true. exists a, l2. reflexivity.
    + symmetry in E'.
      destruct (app_eq_app_le _ _ _ _ E' (Nat.lt_le_incl _ _ L'))
        as (l3 & -> & E'').
      destruct l3 as [|d l3].
      * rewrite length_app in L'. simpl in L'. lia.
      * injection E'' as <- _. destruct N.
        apply in_or_app. right. now left.
Qed.

Lemma add_show_clean (r : text) :
  contains needle r = false -> contains needle (add_show r) = false.
Proof.
  intros C. unfold add_show.
  destruct (contains (lit "plt") r); [|assumption].
  destruct (contains needle (r ++ show_call)) eqn:E; [|reflexivity].
  apply contains_across in E as [E|E]; [congruence| |apply needle_no_nl].
  vm_compute in E. discriminate.
Qed.

Section Toolchain.

Variable PythonExporter : notebook -> text * resources.

(** A call of [export_py] that returns: the loop ended, and the write, if
    there was one, went through. *)
Lemma export_py_returned (fuel : nat) (nb : notebook) (dest : option text)
  (w w' : world) (out : text) :
  export_py PythonExporter fuel nb dest w = Some (Ok (out, w')) ->
  exists r,
    strip_loop fuel (fst (PythonExporter nb)) = Some r /\
    out = add_show r /\ save dest out w = Ok w'.
Proof.
  unfold export_py. destruct (PythonExporter nb) as [body res]. cbn [fst].
  destruct (strip_loop fuel body) as [r|]; [|discriminate].
  intros H. injection H as H.
  destruct (save dest (add_show r) w) as [w0|] eqn:E; [|discriminate].
  cbn [bind] in H. injection H as <- <-. eauto.
Qed.

(** What [export_py] does once the loop has ended. *)
Lemma export_py_stripped (fuel : nat) (nb : notebook) (dest : option text)
  (w : world) (r : text) :
  strip_loop fuel (fst (PythonExporter nb)) = Some r ->
  export_py PythonExporter fuel nb dest w
  = Some (w' <- save dest (add_show r) w ;; Ok (add_show r, w')).
Proof.
  unfold export_py. destruct (PythonExporter nb) as [body res]. cbn [fst].
  now intros ->.
Qed.

(** Whenever [export_py] returns, the text it returns holds no
    [get_ipython()]. *)
Lemma export_py_no_call (fuel : nat) (nb : notebook) (dest : option text)
  (w w' : world) (out : text) :
  export_py PythonExporter fuel nb dest w = Some (Ok (out, w')) ->
  contains needle out = false.
Proof.
  intros H. apply export_py_returned in H as (r & E & -> & _).
  apply add_show_clean. now apply strip_loop_clean in E.
Qed.

End Toolchain.

(** C2: on the exporter output
    [if True:], [    get_ipython().magic(u'matplotlib inline')], [x = 1]
    [export_py] does not take the second line away in full: its
    indentation stays and is put in front of the third line. *)
Theorem export_py_leaves_line_residue :
  export_py
    (renders (unlines ["if True:";
                       "    get_ipython().magic(u'matplotlib inline')";
                       "x = 1"]%string) no_resources)
    1 nb4 None empty_world
  = Some (Ok (unlines ["if True:"; "    x = 1"]%string, empty_world)).
Proof. reflexivity. Qed.

(** C4: the text [export_py] returns is the text left by the stripping
    loop, followed by one [plt.show()] statement if and only if that text
    contains [plt], however often. *)
Theorem export_py_show_call :
  forall (PythonExporter : notebook -> text * resources)
         (fuel : nat) (nb : notebook) (dest : option text)
         (w w' : world) (out : text),
    export_py PythonExporter fuel nb dest w = Some (Ok (out, w')) ->
    exists stripped,
      strip_loop fuel (fst (PythonExporter nb)) = Some stripped /\
      (contains (lit "plt") stripped = true ->
       out = stripped ++ [nl] ++ lit "plt.show()" ++ [nl]) /\
      (contains (lit "plt") stripped = false -> out = stripped) /\
      (out = stripped ++ [nl] ++ lit "plt.show()" ++ [nl] <->
       contains (lit "plt") stripped = true).
Proof.
  intros PythonExporter fuel nb dest w w' out H.
  apply export_py_returned in H as (r & E & -> & _).
  exists r. split; [exact E|]. unfold add_show, show_call.
  destruct (contains (lit "plt") r).
  - repeat split; intros; try discriminate; reflexivity.
  - split; [discriminate|].
    split; [reflexivity|]. split; [|discriminate].
    intros El. apply (f_equal (@length _)) in El.
    rewrite length_app in El. simpl in El. lia.
Qed.

Lemma export_py_show_call_witness :
  exists stripped,
    strip_loop 1 (unlines ["plt.plot(a)"; "plt.plot(b)"]%string)
    = Some stripped /\
    unlines ["plt.plot(a)"; "plt.plot(b)"; ""; "plt.show()"]%string
    = stripped ++ [nl] ++ lit "plt.show()" ++ [nl].
Proof.
  destruct (export_py_show_call
              (renders (unlines ["plt.plot(a)"; "plt.plot(b)"]%string)
                       no_resources)
              1 nb4 None empty_world empty_world
              (unlines ["plt.plot(a)"; "plt.plot(b)"; "";
                        "plt.show()"]%string)
              eq_refl)
    as (stripped & E & Y & _).
  exists stripped. split; [exact E|].
  apply Y. simpl in E. injection E as <-. reflexivity.
Defined.

(** On a text that ends with a newline the loop ends, within one turn per
    newline of the text; and the loop ends only on a text where every
    occurrence of [get_ipython()] has a newline after it: where one has
    none, the loop goes on for ever. *)
Theorem strip_loop_termination :
  (forall body : text,
      ends_nl body ->
      exists r, strip_loop (count_nl body) body = Some r) /\
  (forall (body : text) (n : nat) (r : text),
      strip_loop n body = Some r -> followed body).
Proof.
  split.
  - intros body En. apply strip_loop_ends_nl; [now left|lia].
  - intros body n r H pre post E.
    destruct (in_dec ascii_dec nl post) as [I|N]; [assumption|].
    assert (St : stuck body) by (now exists pre, post).
    rewrite (stuck_loop n _ St) in H. discriminate.
Qed.

Lemma strip_loop_termination_witness :
  (exists r, strip_loop 2 (unlines ["a = get_ipython()";
                                    "get_ipython().magic(u'x')"]%string)
             = Some r) /\
  followed (unlines ["x = 1"]%string).
Proof.
  split.
  - apply (proj1 strip_loop_termination
                 (unlines ["a = get_ipython()";
                           "get_ipython().magic(u'x')"]%string)).
    exists (lit "a = get_ipython()" ++ [nl] ++ lit "get_ipython().magic(u'x')").
    reflexivity.
  - apply (proj2 strip_loop_termination (unlines ["x = 1"]%string) 0
                 (unlines ["x = 1"]%string)).
    reflexivity.
Defined.

(** C8: in [get_ipget_ipython()], newline, [ython()] the one occurrence of
    [get_ipython()] has a newline after it, yet the loop never ends: the
    first turn cuts from the call, not from the start of its line, and so
    joins a new occurrence that no newline follows.  With one more newline
    at the end the loop ends, after two turns for one occurrence. *)
Theorem strip_loop_diverges_after_join :
  let body := lit "get_ipget_ipython()" ++ [nl] ++ lit "ython()" in
  followed body /\
  (forall n, strip_loop n body = None) /\
  length (occurrences needle (body ++ [nl])) = 1 /\
  strip_loop 1 (body ++ [nl]) = None /\
  strip_loop 2 (body ++ [nl]) = Some [].
Proof.
  intros body. split; [now apply followedb_ok|].
  split; [|repeat split; reflexivity].
  assert (St : stuck (strip_step body)).
  { exists [], []. split; [reflexivity|intros []]. }
  intros [|n]; [reflexivity|].
  rewrite strip_loop_turn by reflexivity. now apply stuck_loop.
Qed.

Section Toolchain.

Variable PythonExporter : notebook -> text * resources.

(** What the loop as it is written leaves of a line with a call: let the
    exporter output be whole lines [p], then a line that begins with [l]
    followed by [get_ipython()], the rest [mid] of that line and the text
    [post] after it.  If the lines [p], stripped, give [p'], and [p' ++ l]
    holds no occurrence and does not end with a beginning of
    [get_ipython()], then [export_py] cuts from that occurrence through the
    newline and leaves [l]: what it returns is [p' ++ l] followed by what
    the loop makes of [post] (and by the [plt.show()] statement if one is
    added). *)
Theorem export_py_keeps_line_prefix :
  forall (fuel m : nat) (nb : notebook) (dest : option text)
         (w w' : world) (out : text) (res : resources)
         (p p' l mid post : text),
    PythonExporter nb = (p ++ l ++ needle ++ mid ++ nl :: post, res) ->
    (p = [] \/ ends_nl p) ->
    strip_loop m p = Some p' ->
    safe needle (p' ++ l) = true ->
    ~ In nl mid ->
    export_py PythonExporter fuel nb dest w = Some (Ok (out, w')) ->
    exists rest,
      strip_loop fuel post = Some rest /\
      out = add_show (p' ++ l ++ rest) /\
      exists tail, out = p' ++ l ++ tail.
Proof.
  intros fuel m nb dest w w' out res p p' l mid post Ex Hp Hm Hs Nm H.
  apply export_py_returned in H as (r & E & -> & _).
  rewrite Ex in E. cbn [fst] in E.
  apply (strip_loop_lines m p p') in E; [|idtac|assumption].
  2:{ destruct Hp as [->|Hp]; [now right|now left]. }
  rewrite app_assoc, strip_loop_safe in E by assumption.
  destruct (strip_loop fuel (needle ++ mid ++ nl :: post)) as [rest|] eqn:E';
    [|discriminate].
  injection E as <-.
  destruct fuel as [|fuel]; [discriminate|].
  rewrite strip_loop_turn in E'
    by (apply contains_true; exists [], (mid ++ nl :: post); reflexivity).
  pose proof (strip_step_cut [] mid post) as Cut.
  cbn [app length] in Cut. rewrite Cut in E'; [|reflexivity|assumption].
  exists rest. split; [apply strip_loop_mono with fuel; [assumption|lia]|].
  rewrite <- app_assoc. split; [reflexivity|].
  unfold add_show. destruct (contains _ _).
  - exists (rest ++ show_call). now rewrite <- !app_assoc.
  - now exists rest.
Qed.

End Toolchain.

Lemma export_py_keeps_line_prefix_witness :
  exists tail,
    unlines ["if True:"; "    x = 1"]%string
    = unlines ["if True:"]%string ++ lit "    " ++ tail.
Proof.
  destruct (export_py_keeps_line_prefix
              (renders (unlines ["if True:";
                                 "    get_ipython().magic(u'matplotlib inline')";
                                 "x = 1"]%string) no_resources)
              1 0 nb4 None empty_world empty_world
              (unlines ["if True:"; "    x = 1"]%string) no_resources
              (unlines ["if True:"]%string) (unlines ["if True:"]%string)
              (lit "    ") (lit ".magic(u'matplotlib inline')")
              (unlines ["x = 1"]%string)
              eq_refl
              (or_intror (ex_intro _ (lit "if True:") eq_refl))
              eq_refl eq_refl)
    as (rest & _ & _ & T).
  - unfold nl. simpl. intuition discriminate.
  - reflexivity.
  - exact T.
Defined.

(** C9: on the line [a = get_ipython(); b = get_ipython()] the text before
    the second call does not stay: [export_py] returns [a = ], neither the
    script without that line nor the line up to its last call.  And on
    [get_ipget_ipython()], newline, [ython()], newline, the text [get_ip]
    before the call does not stay either: the cut joins it into a new call,
    which the next turn takes away with it. *)
Theorem export_py_loses_line_prefix :
  export_py (renders (unlines ["a = get_ipython(); b = get_ipython()"]%string)
                     no_resources)
            1 nb4 None empty_world
  = Some (Ok (lit "a = ", empty_world)) /\
  contains (lit "; b = ") (lit "a = ") = false /\
  export_py (renders (unlines ["get_ipget_ipython()"; "ython()"]%string)
                     no_resources)
            2 nb4 None empty_world
  = Some (Ok ([], empty_world)) /\
  contains (lit "get_ip") [] = false.
Proof. repeat split; reflexivity. Qed.

End ScriptExport.

(** ** The probes *)

Module ProbeFacts.

Import Probe Sample.

Lemma run_imports_keeps (env : pyenv) (imports : list (string * string))
  (g : globals) (name : string) :
  bound name g = true -> bound name (fst (run_imports env imports g)) = true.
Proof.
  revert g; induction imports as [|[m n] rest IH]; intros g B; simpl.
  - assumption.
  - destruct (importable env m); [|assumption].
    apply IH. unfold bound in *. simpl. rewrite B. apply orb_true_r.
Qed.

(** The global [IPython] is bound exactly where [IPython] can be
    imported. *)
Lemma module_init_bound (env : pyenv) :
  bound "IPython" (module_init env) = importable env "IPython".
Proof.
  unfold module_init.
  assert (X : exists rest,
             toplevel_imports (version_major env)
             = ("IPython", "IPython")%string :: rest)
    by (unfold toplevel_imports; simpl; eauto).
  destruct X as [rest ->]. cbn [run_imports].
  destruct (importable env "IPython") eqn:I; [|reflexivity].
  pose proof (run_imports_keeps env rest ["IPython"%string] "IPython" eq_refl)
    as K.
  destruct (run_imports env rest ["IPython"%string]) as [g' [e|]];
    cbn [fst] in K; unfold bound in *; cbn [existsb];
    rewrite K; apply orb_true_r.
Qed.

(** [check_ipy_version] answers [False] where [IPython] is missing. *)
Lemma check_ipy_version_absent (env : pyenv) (min_version : list Z) :
  importable env "IPython" = false ->
  check_ipy_version env min_version = Ok false.
Proof. intros I. unfold check_ipy_version. now rewrite I. Qed.

Lemma run_imports_exn (env : pyenv) (imports : list (string * string))
  (g : globals) (e : exn) :
  snd (run_imports env imports g) = Some e -> e = ImportError.
Proof.
  revert g; induction imports as [|[m n] rest IH]; intros g; simpl.
  - discriminate.
  - destruct (importable env m); [apply IH|]. now intros [= <-].
Qed.

(** Where the global [IPython] is bound, [has_ipynb_widgets] returns a
    boolean: [False] when a widget module is missing. *)
Lemma has_ipynb_widgets_bound (env : pyenv) (g : globals) :
  bound "IPython" g = true -> exists b, has_ipynb_widgets env g = Ok b.
Proof.
  intros B. unfold has_ipynb_widgets. rewrite B.
  match goal with
  | |- context [run_imports env ?l ?g] =>
      pose proof (run_imports_exn env l g) as X;
      destruct (run_imports env l g) as [g' [e|]]
  end.
  - rewrite (X e eq_refl). eauto.
  - eauto.
Qed.

(** C3: where [IPython] cannot be imported, the module is loaded without
    the global [IPython], and [has_ipynb_widgets] raises [NameError]
    instead of returning [False]. *)
Theorem has_ipynb_widgets_name_error :
  forall env : pyenv,
    importable env "IPython" = false ->
    has_ipynb_widgets env (module_init env) = Raise NameError.
Proof.
  intros env I. unfold has_ipynb_widgets.
  now rewrite module_init_bound, I.
Qed.

Lemma has_ipynb_widgets_name_error_witness :
  has_ipynb_widgets bare_env (module_init bare_env) = Raise NameError /\
  check_ipy_version bare_env [1%Z; 0%Z] = Ok false.
Proof.
  split.
  - apply (has_ipynb_widgets_name_error bare_env). reflexivity.
  - reflexivity.
Defined.

Example has_ipynb_widgets_without_widgets :
  has_ipynb_widgets env_no_widgets (module_init env_no_widgets) = Ok false.
Proof. reflexivity. Qed.

End ProbeFacts.

(** ** Cell iteration *)

Module CellFacts.

Import Sample.

Lemma text_eqb_eq (a b : text) : text_eqb a b = true <-> a = b.
Proof.
  unfold text_eqb. destruct (list_eq_dec ascii_dec a b); split;
    congruence.
Qed.

Lemma text_eqb_refl (a : text) : text_eqb a a = true.
Proof. now apply text_eqb_eq. Qed.

Lemma text_eqb_neq (a b : text) : text_eqb a b = false <-> a <> b.
Proof.
  unfold text_eqb. destruct (list_eq_dec ascii_dec a b); split;
    congruence.
Qed.

Lemma extend_all (wss : list worksheet) (acc : list cell) :
  fold_left (fun acc ws => acc ++ ws_cells ws) wss acc
  = acc ++ concat (map ws_cells wss).
Proof.
  revert acc; induction wss as [|ws wss IH]; intros acc; simpl.
  - now rewrite app_nil_r.
  - now rewrite IH, app_assoc.
Qed.

Lemma yield_matching_filter (cs : list cell) (ct : text) :
  yield_matching cs ct = filter (fun c => text_eqb (cell_type c) ct) cs.
Proof.
  induction cs as [|c cs IH]; simpl; [reflexivity|].
  now rewrite IH.
Qed.

(** C5: [iter_cells] yields, in their order, exactly the cells of type
    [ct] among the candidates: the cells of all worksheets, one worksheet
    after the other, where [nbformat] is at most 3, and the cells of the
    document otherwise. *)
Theorem iter_cells_filters :
  forall (nb : notebook) (ct : text),
    (forall wss,
        (nbformat nb <= 3)%Z -> worksheets nb = Some wss ->
        iter_cells nb ct
        = Ok (filter (fun c => text_eqb (cell_type c) ct)
                     (concat (map ws_cells wss))) /\
        forall c, In c (filter (fun c => text_eqb (cell_type c) ct)
                               (concat (map ws_cells wss)))
                  <-> In c (concat (map ws_cells wss)) /\ cell_type c = ct)
    /\
    (forall cs,
        (3 < nbformat nb)%Z -> cells nb = Some cs ->
        iter_cells nb ct
        = Ok (filter (fun c => text_eqb (cell_type c) ct) cs) /\
        forall c, In c (filter (fun c => text_eqb (cell_type c) ct) cs)
                  <-> In c cs /\ cell_type c = ct).
Proof.
  intros nb ct. split.
  - intros wss V W. split.
    + unfold iter_cells. destruct (Z.leb_spec (nbformat nb) 3); [|lia].
      rewrite W. simpl. now rewrite extend_all, yield_matching_filter.
    + intros c. rewrite filter_In, text_eqb_eq. reflexivity.
  - intros cs V C. split.
    + unfold iter_cells. destruct (Z.leb_spec (nbformat nb) 3); [lia|].
      rewrite C. simpl. now rewrite yield_matching_filter.
    + intros c. rewrite filter_In, text_eqb_eq. reflexivity.
Qed.

Lemma iter_cells_filters_witness :
  iter_cells nb3 code = Ok [code_cell "a"; code_cell "c"] /\
  iter_cells nb4 (lit "markdown") = Ok [markdown_cell "b"].
Proof.
  split.
  - apply (proj1 (iter_cells_filters nb3 code) _ ltac:(simpl; lia) eq_refl).
  - apply (proj2 (iter_cells_filters nb4 (lit "markdown")) _
                 ltac:(simpl; lia) eq_refl).
Defined.

End CellFacts.

(** ** HTML export and image relocation *)

Module HtmlFacts.

Import PyStr Spec PyStrFacts Convert Sample CellFacts.

(** *** Dictionaries *)

Lemma dict_get_key (d : list (text * payload)) (k : text) :
  In k (dict_keys d) -> exists v, dict_get d k = Ok v /\ In (k, v) d.
Proof.
  induction d as [|[k' v'] d IH]; simpl; [intros []|].
  intros H. destruct (text_eqb k' k) eqn:E.
  - apply text_eqb_eq in E. subst k'. exists v'. split; [reflexivity|now left].
  - apply text_eqb_neq in E. destruct H as [H|H]; [congruence|].
    destruct (IH H) as (v & G & I). exists v. split; [assumption|now right].
Qed.

Lemma dict_get_entry (d : list (text * payload)) (k : text) (v : payload) :
  NoDup (dict_keys d) -> In (k, v) d -> dict_get d k = Ok v.
Proof.
  induction d as [|[k' v'] d IH]; simpl; [intros _ []|].
  intros N H. apply NoDup_cons_iff in N as [N1 N2].
  destruct H as [H|H].
  - injection H as -> ->. now rewrite text_eqb_refl.
  - destruct (text_eqb k' k) eqn:E; [|now apply IH].
    apply text_eqb_eq in E. subst k'. destruct N1.
    apply in_map_iff. now exists (k, v).
Qed.

(** *** Writes *)

Lemma save_written (dest : option text) (t : text) (w w' : world) :
  save dest t w = Ok w' ->
  written w' = written w ++ dest_write dest t /\
  uuid_draws w' = uuid_draws w /\ can_write w' = can_write w.
Proof.
  destruct dest as [p|]; simpl.
  - unfold write_file. destruct (can_write w p); [|discriminate].
    intros [= <-]. now repeat split.
  - intros [= <-]. now rewrite app_nil_r.
Qed.


Lemma save_cannot_write (p : text) (t : text) (w : world) :
  can_write w p = false -> save (Some p) t w = Raise IOError.
Proof. intros H. simpl. unfold write_file. now rewrite H. Qed.

(** *** The relocation loop *)

Section Relocate.

Variables (outs : list (text * payload)) (d r u : text).

Let path_of (o : text) : text := path_join d (u ++ o).
Let new_of (o : text) : text := path_join r (u ++ o).

(** The loop over entries whose paths can all be written. *)
Lemma relocate_entries (tail : list (text * payload)) (h : text) (w : world) :
  (forall o v, In (o, v) tail -> dict_get outs o = Ok v) ->
  (forall o, In o (dict_keys tail) -> can_write w (path_of o) = true) ->
  relocate outs (dict_keys tail) d r u h w
  = Ok (fold_left (fun h o => replace h o (new_of o)) (dict_keys tail) h,
        {| written := written w ++ image_writes d u tail;
           uuid_draws := uuid_draws w;
           can_write := can_write w |}).
Proof.
  revert h w; induction tail as [|[o v] tail IH]; intros h w G C.
  - simpl. rewrite app_nil_r. now destruct w.
  - cbn [dict_keys map fst relocate fold_left].
    pose proof (C o (or_introl eq_refl)) as Co. unfold path_of in Co.
    rewrite Co, (G o v (or_introl eq_refl)).
    cbn [bind]. change (map fst tail) with (dict_keys tail).
    rewrite IH.
    + unfold record_write, image_writes. cbn [written uuid_draws can_write map fst snd].
      now rewrite <- app_assoc.
    + intros o' v' I. apply G. now right.
    + intros o' I. apply C. now right.
Qed.

(** The loop meets a path that cannot be written. *)
Lemma relocate_blocked (keys : list text) (h : text) (w : world) :
  (forall k, In k keys -> In k (dict_keys outs)) ->
  (exists o, In o keys /\ can_write w (path_of o) = false) ->
  relocate outs keys d r u h w = Raise IOError.
Proof.
  revert h w; induction keys as [|o keys IH]; intros h w K (o' & I & C).
  - destruct I.
  - cbn [relocate]. fold (path_of o).
    destruct (can_write w (path_of o)) eqn:Co; [|reflexivity].
    destruct (dict_get_key outs o (K o (or_introl eq_refl))) as (v & G & _).
    rewrite G. cbn [bind]. apply IH.
    + intros k Ik. apply K. now right.
    + exists o'. destruct I as [<-|I]; [congruence|]. now split.
Qed.

Lemma rewritten_fold (keys : list text) (h : text) :
  rewritten new_of keys h
            (fold_left (fun h o => replace h o (new_of o)) keys h).
Proof.
  revert h; induction keys as [|o keys IH]; intros h; simpl.
  - constructor.
  - econstructor; [apply replace_replaced_all|apply IH].
Qed.

Lemma fold_absent (keys : list text) (h : text) :
  (forall o, In o keys -> contains o h = false) ->
  fold_left (fun h o => replace h o (new_of o)) keys h = h.
Proof.
  induction keys as [|o keys IH]; intros A; simpl; [reflexivity|].
  rewrite replace_absent by (apply A; now left).
  apply IH. intros o' I. apply A. now right.
Qed.

End Relocate.

Section Images.

Variable uuid4_hex : nat -> text.

(** A call of [export_images] all of whose paths can be written. *)
Lemma export_images_open (res : resources) (d r h : text) (w : world) :
  NoDup (dict_keys (outputs res)) ->
  (forall o, In o (dict_keys (outputs res)) ->
             can_write w (path_join d (uuid4_hex (uuid_draws w) ++ o)) = true) ->
  export_images uuid4_hex res d r h w
  = Ok (fold_left (fun h o =>
                     replace h o (path_join r (uuid4_hex (uuid_draws w) ++ o)))
                  (dict_keys (outputs res)) h,
        {| written := written w
                      ++ image_writes d (uuid4_hex (uuid_draws w)) (outputs res);
           uuid_draws := S (uuid_draws w);
           can_write := can_write w |}).
Proof.
  intros ND C. unfold export_images.
  rewrite relocate_entries; [reflexivity| |exact C].
  intros o v I. now apply dict_get_entry.
Qed.

(** A call of [export_images] one of whose paths cannot be written. *)
Lemma export_images_blocked (res : resources) (d r h : text) (w : world) :
  (exists o, In o (dict_keys (outputs res)) /\
             can_write w (path_join d (uuid4_hex (uuid_draws w) ++ o)) = false) ->
  export_images uuid4_hex res d r h w = Raise IOError.
Proof.
  intros B. unfold export_images. apply relocate_blocked; [auto|exact B].
Qed.

(** All the paths can be written, or one cannot. *)
Lemma paths_open_or_blocked (d u : text) (keys : list text) (w : world) :
  (forall o, In o keys -> can_write w (path_join d (u ++ o)) = true) \/
  (exists o, In o keys /\ can_write w (path_join d (u ++ o)) = false).
Proof.
  induction keys as [|o keys [IH|(o' & I & C)]].
  - left. intros o [].
  - destruct (can_write w (path_join d (u ++ o))) eqn:C.
    + left. intros o' [<-|I]; auto.
    + right. exists o. split; [now left|assumption].
  - right. exists o'. split; [now right|assumption].
Qed.

(** A call of [export_images] that returned. *)
Lemma export_images_returned (res : resources) (d r h h' : text)
  (w w' : world) :
  NoDup (dict_keys (outputs res)) ->
  export_images uuid4_hex res d r h w = Ok (h', w') ->
  h' = fold_left (fun h o =>
                    replace h o (path_join r (uuid4_hex (uuid_draws w) ++ o)))
                 (dict_keys (outputs res)) h /\
  written w' = written w
               ++ image_writes d (uuid4_hex (uuid_draws w)) (outputs res) /\
  uuid_draws w' = S (uuid_draws w) /\ can_write w' = can_write w.
Proof.
  intros ND H.
  destruct (paths_open_or_blocked d (uuid4_hex (uuid_draws w))
              (dict_keys (outputs res)) w) as [C|B].
  - rewrite export_images_open in H by assumption.
    injection H as <- <-. now repeat split.
  - rewrite export_images_blocked in H by assumption. discriminate.
Qed.

(** C1, as amended: where every write goes through, [export_images] draws
    one identifier [u]; it writes, entry after entry, the payload of every
    output [o] to the path joined from the image directory and [u ++ o];
    and the text it returns comes from the HTML text by exchanging, key
    after key in the order of the dictionary, the occurrences of [o] in the
    text as it then stands for the new relative path.  With one output the
    returned text is the HTML text with the occurrences of its identifier
    exchanged. *)
Theorem export_images_relocates :
  forall (res : resources) (d r h : text) (w : world),
    NoDup (dict_keys (outputs res)) ->
    let u := uuid4_hex (uuid_draws w) in
    let new_of := fun o => path_join r (u ++ o) in
    (forall o, In o (dict_keys (outputs res)) ->
               can_write w (path_join d (u ++ o)) = true) ->
    exists h' w',
      export_images uuid4_hex res d r h w = Ok (h', w') /\
      uuid_draws w' = S (uuid_draws w) /\
      written w' = written w ++ image_writes d u (outputs res) /\
      rewritten new_of (dict_keys (outputs res)) h h' /\
      (forall o v, outputs res = [(o, v)] ->
                   replaced_all h o (new_of o) h').
Proof.
  intros res d r h w ND u new_of C.
  eexists _, _. split; [now apply export_images_open|].
  cbn [written uuid_draws]. fold u. repeat split.
  - apply (rewritten_fold r u).
  - intros o v ->. cbn [dict_keys map fst fold_left].
    apply replace_replaced_all.
Qed.

(** C10, as amended: where every write goes through, [export_images]
    makes one write for every entry of the dictionary, whether or not its
    identifier occurs in the HTML text, and no other; the text is changed
    by nothing but the exchanges, key after key, of the occurrences of the
    identifier in the text as it then stands, and is returned as it was
    when no identifier occurs in it. *)
Theorem export_images_files :
  forall (res : resources) (d r h : text) (w : world),
    NoDup (dict_keys (outputs res)) ->
    let u := uuid4_hex (uuid_draws w) in
    let keys := dict_keys (outputs res) in
    (forall o, In o keys -> can_write w (path_join d (u ++ o)) = true) ->
    exists h' w',
      export_images uuid4_hex res d r h w = Ok (h', w') /\
      written w' = written w ++ image_writes d u (outputs res) /\
      length (written w') = length (written w) + length (outputs res) /\
      (forall o v, In (o, v) (outputs res) ->
                   In (path_join d (u ++ o), BinaryFile v) (written w')) /\
      rewritten (fun o => path_join r (u ++ o)) keys h h' /\
      ((forall o, In o keys -> contains o h = false) -> h' = h).
Proof.
  intros res d r h w ND u keys C.
  eexists _, _. split; [now apply export_images_open|].
  cbn [written]. fold u keys. repeat split.
  - unfold image_writes. now rewrite length_app, length_map.
  - intros o v I. apply in_or_app. right. unfold image_writes.
    apply in_map_iff. now exists (o, v).
  - apply (rewritten_fold r u).
  - apply fold_absent.
Qed.

End Images.

(** *** [export_html] *)

Lemma getitem_split1_1 (s sep : text) :
  getitem (split1 s sep) 1
  = match find0 sep s with
    | Some i => Ok (skipn (i + length sep) s)
    | None => Raise IndexError
    end.
Proof. unfold split1. now destruct (find0 sep s). Qed.

Lemma getitem_split1_0 (s sep : text) :
  getitem (split1 s sep) 0
  = Ok match find0 sep s with
       | Some i => firstn i s
       | None => s
       end.
Proof. unfold split1. now destruct (find0 sep s). Qed.

(** Without the opening marker the fragment cannot be taken. *)
Lemma fragment_raises (output opening closing : text) :
  contains opening output = false ->
  fragment output opening closing = Raise IndexError.
Proof.
  unfold fragment, contains. rewrite getitem_split1_1.
  now destruct (find0 opening output).
Qed.

(** With it the fragment is taken, up to the closing marker or, where
    there is none, up to the end. *)
Lemma fragment_returns (output opening closing : text) :
  contains opening output = true ->
  exists before after taken,
    output = before ++ opening ++ after /\
    fragment output opening closing = Ok taken /\
    (contains closing after = false -> taken = after).
Proof.
  intros C. apply contains_find0 in C as [i F].
  destruct (proj1 (find0_Some _ _ _) F) as [(pre & post & E & L) _].
  unfold fragment. rewrite getitem_split1_1, F. cbn [bind].
  rewrite getitem_split1_0.
  assert (Sk : skipn (i + length opening) output = post).
  { subst output i. rewrite app_assoc, <- length_app, skipn_app.
    now rewrite skipn_all, Nat.sub_diag. }
  rewrite Sk. exists pre, post. eexists. split; [exact E|].
  split; [reflexivity|]. unfold contains.
  now destruct (find0 closing post).
Qed.

Section Html.

Variable HTMLExporter : notebook -> text * resources.
Variable uuid4_hex : nat -> text.

(** [export_html] in three steps: the fragments, the images, the file. *)
Lemma export_html_steps (nb : notebook) (dest d r : option text) (w : world) :
  export_html HTMLExporter uuid4_hex nb dest d r w
  = h <- fragments_html (fst (HTMLExporter nb)) ;;
    x <- match d, r with
         | Some dd, Some rr =>
             export_images uuid4_hex (snd (HTMLExporter nb)) dd rr h w
         | _, _ => Ok (h, w)
         end ;;
    w' <- save dest (fst x) (snd x) ;;
    Ok (fst x, w').
Proof.
  unfold export_html, fragments_html.
  destruct (HTMLExporter nb) as [output res]. cbn [fst snd].
  destruct (fragment output (lit "<head>") (lit "</head>")) as [a|];
    cbn [bind]; [|reflexivity].
  destruct (fragment output (lit "<body>") (lit "</body>")) as [b|];
    cbn [bind]; [|reflexivity].
  destruct d as [d|]; [destruct r as [r|]|]; cbn [bind]; try reflexivity.
  destruct (export_images uuid4_hex res d r _ w) as [[h' w']|];
    reflexivity.
Qed.

Lemma export_html_raises (nb : notebook) (dest d r : option text)
  (w : world) :
  contains (lit "<head>") (fst (HTMLExporter nb)) = false \/
  contains (lit "<body>") (fst (HTMLExporter nb)) = false ->
  export_html HTMLExporter uuid4_hex nb dest d r w = Raise IndexError.
Proof.
  intros H. rewrite export_html_steps. unfold fragments_html.
  destruct (contains (lit "<head>") (fst (HTMLExporter nb))) eqn:Ch.
  - destruct H as [H|H]; [discriminate|].
    destruct (fragment_returns _ _ (lit "</head>") Ch)
      as (a & b & t & _ & -> & _).
    cbn [bind]. now rewrite fragment_raises.
  - now rewrite fragment_raises.
Qed.



End Html.

(** C6, as amended: [export_html] raises [IndexError] when the rendered
    output lacks [<head>] or lacks [<body>].  A missing [</head>] or
    [</body>] raises nothing when the fragment is taken: with its opening
    marker there, the fragment is taken, and where the closing marker is
    missing after it, it runs to the end of the output. *)
Theorem export_html_missing_marker :
  forall (HTMLExporter : notebook -> text * resources)
         (uuid4_hex : nat -> text) (nb : notebook)
         (dest d r : option text) (w : world)
         (opening closing : text),
    (contains (lit "<head>") (fst (HTMLExporter nb)) = false \/
     contains (lit "<body>") (fst (HTMLExporter nb)) = false ->
     export_html HTMLExporter uuid4_hex nb dest d r w = Raise IndexError) /\
    ((opening, closing) = (lit "<head>", lit "</head>") \/
     (opening, closing) = (lit "<body>", lit "</body>") ->
     contains opening (fst (HTMLExporter nb)) = true ->
     exists before after taken,
       fst (HTMLExporter nb) = before ++ opening ++ after /\
       fragment (fst (HTMLExporter nb)) opening closing = Ok taken /\
       (contains closing after = false -> taken = after)).
Proof.
  intros. split.
  - apply export_html_raises.
  - intros _. apply fragment_returns.
Qed.

Lemma export_html_missing_marker_witness :
  export_html (renders (lit "<head>h</head>b</body>") no_resources)
              fixed_uuid nb4 None None None empty_world
  = Raise IndexError /\
  exists before after taken,
    lit "<head>h<body>b" = before ++ lit "<body>" ++ after /\
    fragment (lit "<head>h<body>b") (lit "<body>") (lit "</body>")
    = Ok taken /\
    (contains (lit "</body>") after = false -> taken = after).
Proof.
  split.
  - apply (proj1 (export_html_missing_marker
                    (renders (lit "<head>h</head>b</body>") no_resources)
                    fixed_uuid nb4 None None None empty_world [] [])).
    right. reflexivity.
  - apply (proj2 (export_html_missing_marker
                    (renders (lit "<head>h<body>b") no_resources)
                    fixed_uuid nb4 None None None empty_world
                    (lit "<body>") (lit "</body>"))).
    + now right.
    + reflexivity.
Defined.

(** C6, as stated, fails: a rendered output without [</head>] and without
    [</body>] raises nothing; the fragments then run to the end of the
    output. *)
Lemma export_html_without_closing_markers :
  contains (lit "</head>") (lit "<head>h<body>b") = false /\
  contains (lit "</body>") (lit "<head>h<body>b") = false /\
  export_html (renders (lit "<head>h<body>b") no_resources)
              fixed_uuid nb4 None None None empty_world
  = Ok (wrap (lit "h<body>b") (lit "b"), empty_world).
Proof. repeat split; reflexivity. Qed.



(** C1, as stated, fails: with the outputs [a.png] and [ba.png] the
    occurrence of [ba.png] is not exchanged for its new relative path: the
    exchange for [a.png] has already changed it, and the new path of
    [ba.png] is nowhere in the returned text. *)
Lemma export_images_misses_identifier :
  exists w',
    export_images fixed_uuid nested_images (lit "img") (lit "rel")
                  (lit "<img src=a.png><img src=ba.png>") empty_world
    = Ok (lit "<img src=rel/0123456789abcdef0123456789abcdefa.png>"
          ++ lit "<img src=brel/0123456789abcdef0123456789abcdefa.png>",
          w') /\
    contains (lit "ba.png") (lit "<img src=a.png><img src=ba.png>") = true /\
    contains (lit "rel/0123456789abcdef0123456789abcdefba.png")
             (lit "<img src=rel/0123456789abcdef0123456789abcdefa.png>"
              ++ lit "<img src=brel/0123456789abcdef0123456789abcdefa.png>")
    = false.
Proof. eexists. repeat split; reflexivity. Qed.

Lemma export_images_relocates_witness :
  exists h' w',
    export_images fixed_uuid one_image (lit "img") (lit "rel")
                  (lit "<img src=output_0_0.png>") empty_world
    = Ok (h', w') /\
    written w' = [(one_image_path, BinaryFile [Byte.x89; Byte.x50])].
Proof.
  destruct (export_images_relocates fixed_uuid
              one_image (lit "img") (lit "rel")
              (lit "<img src=output_0_0.png>") empty_world)
    as (h' & w' & E & _ & F & _).
  - repeat constructor. intros [].
  - intros o _. reflexivity.
  - exists h', w'. split; [exact E|exact F].
Defined.

(** C10, as stated, fails: with the outputs [x.png] and [=rel] and the
    relative directory [rel], the text [<img src=x.png>] is changed at
    index 8, its [=], where no identifier occurs: [x.png] occurs at index
    9 only and [=rel] nowhere, and the [=rel] that is exchanged came with
    the new path of [x.png]. *)
Lemma export_images_changes_elsewhere :
  exists w',
    export_images fixed_uuid crossing_images (lit "img") (lit "rel")
                  (lit "<img src=x.png>") empty_world
    = Ok (lit "<img srcrel/0123456789abcdef0123456789abcdef=rel"
          ++ lit "/0123456789abcdef0123456789abcdefx.png>", w') /\
    occurrences (lit "x.png") (lit "<img src=x.png>") = [9] /\
    occurrences (lit "=rel") (lit "<img src=x.png>") = [] /\
    nth_error (lit "<img src=x.png>") 8 = Some "="%char /\
    nth_error (lit "<img srcrel/0123456789abcdef0123456789abcdef=rel") 8
    = Some "r"%char.
Proof. eexists. repeat split; reflexivity. Qed.

Lemma export_images_files_witness :
  exists h' w',
    export_images fixed_uuid two_images (lit "img") (lit "rel")
                  (lit "<img src=output_0_0.png>") empty_world
    = Ok (h', w') /\
    In (lit "img/0123456789abcdef0123456789abcdefunused.png",
        BinaryFile [Byte.x00])
       (written w').
Proof.
  destruct (export_images_files fixed_uuid
              two_images (lit "img") (lit "rel")
              (lit "<img src=output_0_0.png>") empty_world)
    as (h' & w' & E & _ & _ & F & _).
  - repeat constructor; simpl; intuition discriminate.
  - intros o _. reflexivity.
  - exists h', w'. split; [exact E|].
    apply (F (lit "unused.png")). right. now left.
Defined.

End HtmlFacts.

(** * Further properties *)

(** ** Script export: scripts whose calls begin their lines *)

Module ScriptMore.

Import PyStr Spec PyStrFacts Convert StripFacts ScriptExport Sample.

Lemma export_py_no_call_witness :
  contains needle (unlines ["x = 1"; "plt.plot(x)"; ""; "plt.show()"]%string)
  = false.
Proof.
  apply (export_py_no_call
           (renders (unlines ["get_ipython().magic(u'pylab')"; "x = 1";
                              "plt.plot(x)"]%string) no_resources)
           1 nb4 None empty_world empty_world
           (unlines ["x = 1"; "plt.plot(x)"; ""; "plt.show()"]%string)).
  reflexivity.
Defined.

Lemma contains_tail (sub : text) (c : ascii) (l : text) :
  contains sub (c :: l) = false -> contains sub l = false.
Proof.
  intros H. apply contains_false. intros pre post ->.
  apply (proj1 (contains_false _ _) H (c :: pre) post). reflexivity.
Qed.

(** A line without call, closed by its newline, is a safe prefix. *)
Lemma safe_line (l : text) :
  contains needle l = false -> safe needle (l ++ [nl]) = true.
Proof.
  induction l as [|c l IH]; intros C; [reflexivity|].
  change ((c :: l) ++ [nl]) with (c :: (l ++ [nl])). cbn [safe].
  rewrite IH by (now apply contains_tail in C).
  assert (S1 : startswith (c :: l ++ [nl]) needle = false).
  { destruct (startswith (c :: l ++ [nl]) needle) eqn:E; [|reflexivity].
    apply startswith_inv in E as [t E].
    assert (X : contains needle ((c :: l) ++ nl :: []) = true)
      by (apply contains_true; exists [], t; exact E).
    apply contains_across in X as [X|X]; [congruence|discriminate|].
    apply needle_no_nl. }
  assert (S2 : startswith needle (c :: l ++ [nl]) = false).
  { destruct (startswith needle (c :: l ++ [nl])) eqn:E; [|reflexivity].
    apply startswith_inv in E as [t E]. exfalso. apply needle_no_nl.
    rewrite E. change (c :: l ++ [nl]) with ((c :: l) ++ [nl]).
    rewrite <- app_assoc. apply in_or_app. right. now left. }
  now rewrite S1, S2.
Qed.

(** The loop on a script whose calls begin their lines: one turn per line
    with a call, and what is left are the other lines. *)
Lemma strip_loop_whole_lines (ls : list text) :
  Forall call_at_start ls ->
  strip_loop (length (filter has_call ls)) (unlines_text ls)
  = Some (unlines_text (filter (fun l => negb (has_call l)) ls)).
Proof.
  induction 1 as [|l ls [Nl Hl] F IH]; [reflexivity|].
  unfold unlines_text in *. cbn [map concat filter].
  change (has_call l) with (contains needle l).
  destruct (contains needle l) eqn:C; cbn [negb].
  - destruct Hl as [Hl|Hl]; [congruence|].
    apply startswith_inv in Hl as [mid ->].
    cbn [length].
    assert (Nm : ~ In nl mid)
      by (intros I; apply Nl; apply in_or_app; now right).
    pose proof (strip_step_cut [] mid
                  (concat (map (fun l => l ++ [nl]) ls))) as Cut.
    cbn [app length] in Cut.
    rewrite <- !app_assoc. cbn [app].
    rewrite strip_loop_turn.
    + rewrite Cut; [exact IH| |assumption].
      rewrite <- (app_nil_l (needle ++ _)).
      now rewrite find0_safe.
    + apply contains_true. exists [], (mid ++ nl :: concat (map (fun l => l ++ [nl]) ls)).
      reflexivity.
  - cbn [map concat].
    rewrite strip_loop_safe by (now apply safe_line).
    now rewrite IH.
Qed.

Section Toolchain.

Variable PythonExporter : notebook -> text * resources.

(** When every [get_ipython()] of the exporter output begins a line, and
    the write to the destination path, if there is one, goes through,
    [export_py] returns the lines without call, in their order (and the
    [plt.show()] statement if they contain [plt]), after one turn of the
    loop per line with a call. *)
Theorem export_py_whole_lines :
  forall (nb : notebook) (dest : option text) (w w' : world)
         (ls : list text) (res : resources),
    PythonExporter nb = (unlines_text ls, res) ->
    Forall call_at_start ls ->
    let kept := unlines_text (filter (fun l => negb (has_call l)) ls) in
    save dest (add_show kept) w = Ok w' ->
    export_py PythonExporter (length (filter has_call ls)) nb dest w
    = Some (Ok (add_show kept, w')).
Proof.
  intros nb dest w w' ls res E F kept S.
  rewrite (export_py_stripped PythonExporter _ nb dest w kept).
  - now rewrite S.
  - rewrite E. cbn [fst]. now apply strip_loop_whole_lines.
Qed.

End Toolchain.

Lemma export_py_whole_lines_witness :
  export_py (renders (unlines ["get_ipython().magic(u'pylab')"; "x = 1";
                               "get_ipython().system(u'ls')"; "y = 2"]%string)
                     no_resources)
            2 nb4 (Some (lit "out.py")) empty_world
  = Some (Ok (unlines ["x = 1"; "y = 2"]%string,
              record_write (lit "out.py")
                           (TextFile (unlines ["x = 1"; "y = 2"]%string))
                           empty_world)).
Proof.
  apply (export_py_whole_lines
           (renders (unlines ["get_ipython().magic(u'pylab')"; "x = 1";
                              "get_ipython().system(u'ls')"; "y = 2"]%string)
                    no_resources)
           nb4 (Some (lit "out.py")) empty_world
           (record_write (lit "out.py")
                         (TextFile (unlines ["x = 1"; "y = 2"]%string))
                         empty_world)
           [lit "get_ipython().magic(u'pylab')"; lit "x = 1";
            lit "get_ipython().system(u'ls')"; lit "y = 2"]
           no_resources eq_refl).
  - repeat constructor; try (right; reflexivity); try (left; reflexivity);
      unfold nl; simpl; intuition discriminate.
  - reflexivity.
Defined.

(** When the loop ends, what it returns is no longer than the text it was
    given, and at least 14 characters shorter (a call and a newline) when
    that text had a call. *)
Theorem strip_loop_shrinks :
  forall (n : nat) (body r : text),
    strip_loop n body = Some r ->
    length r <= length body /\
    (contains needle body = true -> length r + 14 <= length body).
Proof.
  induction n as [|n IH]; intros body r H.
  - simpl in H. destruct (contains needle body); [discriminate|].
    injection H as <-. split; [lia|discriminate].
  - destruct (contains needle body) eqn:C.
    + rewrite strip_loop_turn in H by assumption.
      destruct (strip_step_cases _ C) as (pre & post & E & F & [[N _]|X]).
      * assert (St : stuck body) by (now exists pre, post).
        rewrite (stuck_loop n _ (stuck_step _ St)) in H. discriminate.
      * destruct X as (mid & post' & -> & Nm & Es).
        rewrite Es in H. apply IH in H as [H _].
        rewrite E. rewrite !length_app in *. cbn [length].
        rewrite needle_length. split; [lia|intros _; lia].
    + rewrite strip_loop_done in H by assumption. injection H as <-.
      split; [lia|discriminate].
Qed.

Lemma strip_loop_shrinks_witness :
  length (unlines ["x = 1"]%string) + 14
  <= length (unlines ["get_ipython().magic(u'pylab')"; "x = 1"]%string).
Proof.
  apply (proj2 (strip_loop_shrinks 1
                  (unlines ["get_ipython().magic(u'pylab')"; "x = 1"]%string)
                  (unlines ["x = 1"]%string) eq_refl)).
  reflexivity.
Defined.

End ScriptMore.

(** ** HTML export: fragments, header lines, files *)

Module HtmlMore.

Import PyStr Spec PyStrFacts Convert Sample CellFacts HtmlFacts.

Lemma find0_here (sub x : text) : find0 sub (sub ++ x) = Some 0.
Proof.
  destruct (sub ++ x) eqn:E; cbn [find0].
  - apply app_eq_nil in E as [-> _]. reflexivity.
  - now rewrite <- E, startswith_app.
Qed.

(** Behind a safe prefix, [split] cuts at the separator that follows. *)
Lemma split1_safe (sub pre x : text) :
  safe sub pre = true -> split1 (pre ++ sub ++ x) sub = [pre; x].
Proof.
  intros Hs. unfold split1. rewrite find0_safe, find0_here by assumption.
  cbn [option_map]. rewrite Nat.add_0_r.
  rewrite firstn_app, firstn_all, Nat.sub_diag. cbn [firstn].
  rewrite app_nil_r. f_equal. f_equal.
  rewrite app_assoc, skipn_app, <- length_app, skipn_all, Nat.sub_diag.
  reflexivity.
Qed.

(** The fragment between a first opening marker and the closing marker
    that follows it. *)
Lemma fragment_between (opening closing before taken rest : text) :
  safe opening before = true -> safe closing taken = true ->
  fragment (before ++ opening ++ taken ++ closing ++ rest) opening closing
  = Ok taken.
Proof.
  intros S1 S2. unfold fragment. rewrite split1_safe by assumption.
  cbn [getitem nth_error bind]. now rewrite split1_safe by assumption.
Qed.

Section Html.

Variable HTMLExporter : notebook -> text * resources.
Variable uuid4_hex : nat -> text.

(** On a rendered output with its four markers, [export_html] takes the
    text between the first [<head>] and the [</head>] that follows it, and
    the text between the first [<body>] and the [</body>] that follows it:
    without image directories, and when the write to the destination path,
    if there is one, goes through, it returns the patched header and the
    body, wrapped. *)
Theorem export_html_fragments :
  forall (nb : notebook) (dest d r : option text) (w w' : world)
         (output : text) (res : resources) (a hd t1 b bd t2 : text),
    HTMLExporter nb = (output, res) ->
    output = a ++ lit "<head>" ++ hd ++ lit "</head>" ++ t1 ->
    safe (lit "<head>") a = true ->
    safe (lit "</head>") hd = true ->
    output = b ++ lit "<body>" ++ bd ++ lit "</body>" ++ t2 ->
    safe (lit "<body>") b = true ->
    safe (lit "</body>") bd = true ->
    d = None \/ r = None ->
    save dest (wrap (patch_header hd) bd) w = Ok w' ->
    export_html HTMLExporter uuid4_hex nb dest d r w
    = Ok (wrap (patch_header hd) bd, w').
Proof.
  intros nb dest d r w w' output res a hd t1 b bd t2 E Ea Sa Shd Eb Sb Sbd
         N Sv.
  rewrite export_html_steps, E. cbn [fst snd].
  assert (F : fragments_html output = Ok (wrap (patch_header hd) bd)).
  { unfold fragments_html.
    rewrite Ea at 1. rewrite fragment_between by assumption. cbn [bind].
    rewrite Eb. now rewrite fragment_between by assumption. }
  rewrite F. cbn [bind].
  assert (X : match d, r with
              | Some dd, Some rr =>
                  export_images uuid4_hex res dd rr
                                (wrap (patch_header hd) bd) w
              | _, _ => Ok (wrap (patch_header hd) bd, w)
              end = Ok (wrap (patch_header hd) bd, w))
    by (destruct N as [-> | ->]; [|destruct d]; reflexivity).
  rewrite X. cbn [bind fst snd]. now rewrite Sv.
Qed.

(** Without both image directories a call of [export_html] that returns
    has drawn no identifier and has made no write but the one of the
    returned text to the destination path, if there is one, also when the
    resources hold outputs. *)
Theorem export_html_touches :
  forall (nb : notebook) (dest d r : option text) (w w' : world)
         (out : text),
    export_html HTMLExporter uuid4_hex nb dest d r w = Ok (out, w') ->
    d = None \/ r = None ->
    uuid_draws w' = uuid_draws w /\
    written w' = written w ++ dest_write dest out.
Proof.
  intros nb dest d r w w' out H N. rewrite export_html_steps in H.
  destruct (fragments_html (fst (HTMLExporter nb))) as [h|];
    [|discriminate].
  cbn [bind] in H.
  assert (X : match d, r with
              | Some dd, Some rr =>
                  export_images uuid4_hex (snd (HTMLExporter nb)) dd rr h w
              | _, _ => Ok (h, w)
              end = Ok (h, w))
    by (destruct N as [-> | ->]; [|destruct d]; reflexivity).
  rewrite X in H. cbn [bind fst snd] in H.
  destruct (save dest h w) as [w1|] eqn:S; [|discriminate].
  cbn [bind] in H. injection H as <- <-.
  apply save_written in S as (S & U & _). now split.
Qed.

(** When no identifier of the resources occurs in the text that
    [export_html] returns without image directories, a call with them
    that returns returns the same text. *)
Theorem export_html_images_unreferenced :
  forall (nb : notebook) (dest : option text) (dd rr : text)
         (w w0 w' : world) (out out' : text),
    export_html HTMLExporter uuid4_hex nb None None None w = Ok (out, w0) ->
    (forall o, In o (dict_keys (outputs (snd (HTMLExporter nb)))) ->
               contains o out = false) ->
    NoDup (dict_keys (outputs (snd (HTMLExporter nb)))) ->
    export_html HTMLExporter uuid4_hex nb dest (Some dd) (Some rr) w
    = Ok (out', w') ->
    out' = out.
Proof.
  intros nb dest dd rr w w0 w' out out' H A ND H'.
  rewrite export_html_steps in H, H'.
  destruct (fragments_html (fst (HTMLExporter nb))) as [h|];
    [|discriminate].
  cbn [bind fst snd save] in H. injection H as <- _.
  cbn [bind] in H'.
  destruct (export_images uuid4_hex (snd (HTMLExporter nb)) dd rr h w)
    as [[h' w1]|] eqn:E; [|discriminate].
  apply export_images_returned in E as (-> & _); [|assumption].
  cbn [bind fst snd] in H'.
  destruct (save dest _ w1); [|discriminate].
  cbn [bind] in H'. injection H' as <- _. now apply fold_absent.
Qed.

(** [export_images] returns exactly when every path it writes to can be
    written, and raises the error of the write otherwise: looking up the
    payload of a key of the dictionary never fails.  When it returns it
    has drawn one identifier, also when there was nothing to relocate. *)
Theorem export_images_returns :
  forall (res : resources) (d r h : text) (w : world),
    NoDup (dict_keys (outputs res)) ->
    ((forall o, In o (dict_keys (outputs res)) ->
                can_write w (path_join d (uuid4_hex (uuid_draws w) ++ o))
                = true) ->
     exists h' w',
       export_images uuid4_hex res d r h w = Ok (h', w') /\
       uuid_draws w' = S (uuid_draws w)) /\
    ((exists o, In o (dict_keys (outputs res)) /\
                can_write w (path_join d (uuid4_hex (uuid_draws w) ++ o))
                = false) ->
     export_images uuid4_hex res d r h w = Raise IOError).
Proof.
  intros res d r h w ND. split.
  - intros C. eexists _, _. split; [now apply export_images_open|].
    reflexivity.
  - apply export_images_blocked.
Qed.

End Html.

Lemma export_html_fragments_witness :
  export_html
    (renders (lit "<html><head><title>t</title></head><body><p>x</p></body></html>")
             no_resources)
    fixed_uuid nb4 None None None empty_world
  = Ok (wrap (lit "<title>t</title>") (lit "<p>x</p>"), empty_world).
Proof.
  apply (export_html_fragments
           (renders (lit "<html><head><title>t</title></head><body><p>x</p></body></html>")
                    no_resources)
           fixed_uuid nb4 None None None empty_world empty_world
           (lit "<html><head><title>t</title></head><body><p>x</p></body></html>")
           no_resources
           (lit "<html>") (lit "<title>t</title>")
           (lit "<body><p>x</p></body></html>")
           (lit "<html><head><title>t</title></head>") (lit "<p>x</p>")
           (lit "</html>")
           eq_refl eq_refl eq_refl eq_refl eq_refl eq_refl eq_refl).
  - now left.
  - reflexivity.
Defined.

Lemma export_html_touches_witness :
  written (record_write (lit "out.html")
                        (TextFile (wrap (lit "h") (lit "b"))) empty_world)
  = [] ++ [(lit "out.html", TextFile (wrap (lit "h") (lit "b")))].
Proof.
  apply (export_html_touches
           (renders (lit "<head>h</head><body>b</body>") one_image)
           fixed_uuid nb4 (Some (lit "out.html")) None None empty_world
           (record_write (lit "out.html")
                         (TextFile (wrap (lit "h") (lit "b"))) empty_world)
           (wrap (lit "h") (lit "b")) eq_refl).
  now left.
Defined.

Lemma export_html_images_unreferenced_witness :
  wrap (lit "h") (lit "b") = wrap (lit "h") (lit "b").
Proof.
  apply (export_html_images_unreferenced
           (renders (lit "<head>h</head><body>b</body>") one_image)
           fixed_uuid nb4 None (lit "img") (lit "rel")
           empty_world empty_world one_image_world
           (wrap (lit "h") (lit "b")) (wrap (lit "h") (lit "b")) eq_refl).
  - intros o [<-|[]]. reflexivity.
  - repeat constructor. intros [].
  - reflexivity.
Defined.

Lemma export_images_returns_witness :
  (exists h' w',
      export_images fixed_uuid one_image (lit "img") (lit "rel") (lit "x")
                    empty_world = Ok (h', w') /\
      uuid_draws w' = 1) /\
  export_images fixed_uuid one_image (lit "img") (lit "rel") (lit "x")
                closed_world = Raise IOError.
Proof.
  assert (ND : NoDup (dict_keys (outputs one_image)))
    by (repeat constructor; intros []).
  split.
  - apply (proj1 (export_images_returns fixed_uuid one_image
                    (lit "img") (lit "rel") (lit "x") empty_world ND)).
    intros o _. reflexivity.
  - apply (proj2 (export_images_returns fixed_uuid one_image
                    (lit "img") (lit "rel") (lit "x") closed_world ND)).
    exists (lit "output_0_0.png"). split; [now left|reflexivity].
Defined.

(** *** The lines of the patched header *)

Lemma split_from_char_app (c : ascii) (cur l s : text) :
  ~ In c l ->
  split_from [c] 0 cur (l ++ s) = split_from [c] 0 (rev l ++ cur) s.
Proof.
  revert cur; induction l as [|d l IH]; intros cur N; [reflexivity|].
  cbn [app split_from startswith].
  destruct (Ascii.eqb c d) eqn:E.
  - apply Ascii.eqb_eq in E. subst d. destruct N. now left.
  - rewrite IH by (intros I; apply N; now right).
    cbn [rev]. now rewrite <- app_assoc.
Qed.

Lemma split_from_char_sep (c : ascii) (cur s : text) :
  split_from [c] 0 cur (c :: s) = rev cur :: split_from [c] 0 [] s.
Proof. cbn [split_from startswith]. now rewrite Ascii.eqb_refl. Qed.

(** Cutting at a character what was joined with it gives the parts back,
    when no part holds the character. *)
Lemma split_join_char (c : ascii) (l : text) (ls : list text) :
  Forall (fun p => ~ In c p) (l :: ls) ->
  split (join [c] (l :: ls)) [c] = l :: ls.
Proof.
  revert l; induction ls as [|q ls IH]; intros l F;
    apply Forall_cons_iff in F as [Nl F]; unfold split in *.
  - cbn [join]. rewrite <- (app_nil_r l) at 1.
    rewrite split_from_char_app by assumption.
    cbn [split_from]. now rewrite app_nil_r, rev_involutive.
  - rewrite join_cons. cbn [app].
    rewrite split_from_char_app, split_from_char_sep by assumption.
    rewrite app_nil_r, rev_involutive. f_equal. now apply IH.
Qed.

(** The parts cut at a character do not hold it. *)
Lemma split_from_char_free (c : ascii) (s cur : text) :
  ~ In c cur -> Forall (fun p => ~ In c p) (split_from [c] 0 cur s).
Proof.
  revert cur; induction s as [|d s IH]; intros cur N.
  - cbn [split_from]. constructor; [|constructor].
    intros I. apply N. now apply in_rev.
  - cbn [split_from startswith]. destruct (Ascii.eqb c d) eqn:E.
    + constructor.
      * intros I. apply N. now apply in_rev.
      * apply IH. intros [].
    + apply IH. intros [->|I]; [|now apply N].
      now rewrite Ascii.eqb_refl in E.
Qed.

(** No line of the patched header begins with [pre{] or [p{margin], and
    none contains [navbar], [body{], [alert{], [uneditable-input{],
    [collapse{] or one of [h1{] ... [h6{]. *)
Theorem patch_header_lines :
  forall (header line : text),
    In line (split (patch_header header) [nl]) ->
    (forall s, In s bad_beginning -> startswith line s = false) /\
    (forall s, In s bad_anywhere -> contains s line = false).
Proof.
  intros header line I.
  assert (K : kept_line line = true).
  { unfold patch_header in I.
    match type of I with
    | context [filter ?f ?l] =>
        set (ls := filter f l) in *;
        assert (Fk : Forall (fun x => kept_line x = true) ls)
          by (apply Forall_forall; intros x Ix;
              now apply filter_In in Ix as [_ Ix]);
        assert (Fn : Forall (fun p => ~ In nl p) ls)
          by (apply Forall_forall; intros x Ix;
              apply filter_In in Ix as [Ix _];
              revert x Ix; apply Forall_forall;
              apply split_from_char_free; intros [])
    end.
    destruct ls as [|l ls].
    - cbn in I. destruct I as [<-|[]]. reflexivity.
    - rewrite split_join_char in I by assumption.
      revert line I. now apply Forall_forall. }
  unfold kept_line in K. apply andb_prop in K as [K1 K2].
  apply negb_true_iff in K1, K2. split; intros s Is.
  - destruct (startswith line s) eqn:E; [|reflexivity].
    assert (X : existsb (fun s => startswith line s) bad_beginning = true)
      by (apply existsb_exists; eauto).
    congruence.
  - destruct (contains s line) eqn:E; [|reflexivity].
    assert (X : existsb (fun s => contains s line) bad_anywhere = true)
      by (apply existsb_exists; eauto).
    congruence.
Qed.

Lemma patch_header_lines_witness :
  contains (lit "navbar") (lit "a{}") = false.
Proof.
  apply (proj2 (patch_header_lines
                  (lit "a{}" ++ [nl] ++ lit ".navbar{x}" ++ [nl] ++ lit "pre{y}")
                  (lit "a{}") (or_introl eq_refl))).
  now left.
Defined.

End HtmlMore.

(** ** Cell iteration: containers and worksheets *)

Module CellMore.

Import Sample CellFacts.

(** [iter_cells] does not fall back on the other container: a document
    with [nbformat] at most 3 and no [worksheets] raises [AttributeError]
    even when it has [cells], and one with a later [nbformat] and no
    [cells] raises it even when it has [worksheets]. *)
Theorem iter_cells_container :
  forall (nb : notebook) (ct : text),
    ((nbformat nb <= 3)%Z -> worksheets nb = None ->
     iter_cells nb ct = Raise AttributeError) /\
    ((3 < nbformat nb)%Z -> cells nb = None ->
     iter_cells nb ct = Raise AttributeError).
Proof.
  intros nb ct. unfold iter_cells. split; intros V N.
  - destruct (Z.leb_spec (nbformat nb) 3); [|lia]. now rewrite N.
  - destruct (Z.leb_spec (nbformat nb) 3); [lia|]. now rewrite N.
Qed.

Lemma iter_cells_container_witness :
  iter_cells {| nbformat := 3; worksheets := None;
                cells := Some [code_cell "a"] |} code
  = Raise AttributeError.
Proof.
  apply (proj1 (iter_cells_container
                  {| nbformat := 3; worksheets := None;
                     cells := Some [code_cell "a"] |} code)
               ltac:(simpl; lia)).
  reflexivity.
Defined.

Lemma yield_matching_app (xs ys : list cell) (ct : text) :
  yield_matching (xs ++ ys) ct
  = yield_matching xs ct ++ yield_matching ys ct.
Proof.
  induction xs as [|c xs IH]; simpl; [reflexivity|].
  destruct (text_eqb (cell_type c) ct); simpl; now rewrite IH.
Qed.

(** On a document of the older schema, what [iter_cells] yields is what
    it would yield worksheet by worksheet, put end to end. *)
Theorem iter_cells_by_worksheet :
  forall (nb : notebook) (ct : text) (wss : list worksheet),
    (nbformat nb <= 3)%Z -> worksheets nb = Some wss ->
    iter_cells nb ct
    = Ok (concat (map (fun ws => yield_matching (ws_cells ws) ct) wss)).
Proof.
  intros nb ct wss V W. unfold iter_cells.
  destruct (Z.leb_spec (nbformat nb) 3); [|lia].
  rewrite W. cbn [getattr bind]. f_equal. rewrite extend_all. cbn [app].
  clear W. induction wss as [|ws wss IH]; [reflexivity|].
  cbn [map concat]. now rewrite yield_matching_app, IH.
Qed.

Lemma iter_cells_by_worksheet_witness :
  iter_cells nb3 code = Ok ([code_cell "a"] ++ [code_cell "c"] ++ []).
Proof.
  apply (iter_cells_by_worksheet nb3 code _ ltac:(simpl; lia) eq_refl).
Defined.

End CellMore.

(** ** The probes: what the module binds, and what the probes answer *)

Module ProbeMore.

Import Probe Sample ProbeFacts.

Lemma run_imports_done (env : pyenv) (imports : list (string * string))
  (g0 g : globals) :
  run_imports env imports g0 = (g, None) -> g = rev (map snd imports) ++ g0.
Proof.
  revert g0; induction imports as [|[m n] rest IH]; intros g0 H; simpl in *.
  - now injection H as <-.
  - destruct (importable env m); [|discriminate].
    apply IH in H. subst g. now rewrite <- app_assoc.
Qed.

Lemma run_imports_names (env : pyenv) (imports : list (string * string))
  (g0 : globals) (name : string) :
  bound name (fst (run_imports env imports g0)) = true ->
  bound name g0 = true \/ In name (map snd imports).
Proof.
  revert g0; induction imports as [|[m n] rest IH]; intros g0 H; simpl in *.
  - now left.
  - destruct (importable env m); [|now left].
    apply IH in H as [H|H]; [|now right; right].
    unfold bound in H. cbn [existsb] in H.
    apply orb_prop in H as [H|H]; [|now left].
    apply String.eqb_eq in H. right. left. now symmetry.
Qed.

Lemma bound_In (name : string) (g : globals) :
  In name g -> bound name g = true.
Proof.
  intros I. apply existsb_exists. exists name. split; [assumption|].
  apply String.eqb_refl.
Qed.

Lemma toplevel_names (major : Z) (name : string) :
  In name ["IPython"; "get_ipython"; "HTML"; "Config"; "HTMLExporter";
           "PythonExporter"]%string ->
  In name (map snd (toplevel_imports major)).
Proof.
  unfold toplevel_imports. intros I. rewrite !map_app.
  destruct (major <=? 3)%Z; simpl in *; intuition (subst; auto 10).
Qed.

Lemma toplevel_no_read_nb (major : Z) :
  ~ In "read_nb"%string (map snd (toplevel_imports major)).
Proof.
  unfold toplevel_imports. rewrite !map_app.
  destruct (major <=? 3)%Z, (major <=? 2)%Z, (major =? 3)%Z; simpl;
    intuition discriminate.
Qed.

(** However the imports go, the module binds [get_ipython]: the
    assertion of line 43 holds. *)
Theorem module_init_get_ipython :
  forall env : pyenv, bound "get_ipython" (module_init env) = true.
Proof.
  intros env. unfold module_init.
  destruct (run_imports env (toplevel_imports (version_major env)) [])
    as [g [e|]] eqn:E; [reflexivity|].
  apply run_imports_done in E. subst g. apply bound_In.
  right. apply in_or_app. left. apply in_rev. rewrite rev_involutive.
  apply toplevel_names. simpl. auto.
Qed.

(** The module binds [read_nb] only when every import went through: then
    [IPython], [get_ipython], [HTML], [Config] and the two exporters are
    bound as well. *)
Theorem module_init_all_or_nothing :
  forall (env : pyenv) (name : string),
    bound "read_nb" (module_init env) = true ->
    In name ["IPython"; "get_ipython"; "HTML"; "Config"; "HTMLExporter";
             "PythonExporter"]%string ->
    bound name (module_init env) = true.
Proof.
  intros env name R I. unfold module_init in *.
  destruct (run_imports env (toplevel_imports (version_major env)) [])
    as [g [e|]] eqn:E.
  - exfalso. unfold bound in R. cbn [existsb] in R.
    change (String.eqb "read_nb" "get_ipython") with false in R.
    cbn [orb] in R.
    pose proof (run_imports_names env
                  (toplevel_imports (version_major env)) [] "read_nb") as X.
    rewrite E in X. destruct (X R) as [X'|X']; [discriminate|].
    now apply toplevel_no_read_nb in X'.
  - apply run_imports_done in E. subst g. apply bound_In.
    right. apply in_or_app. left. apply in_rev. rewrite rev_involutive.
    now apply toplevel_names.
Qed.

Lemma module_init_all_or_nothing_witness :
  bound "PythonExporter"
        (module_init {| importable := fun _ => true;
                        version_info := (5%Z, [0%Z]) |}) = true.
Proof.
  apply (module_init_all_or_nothing
           {| importable := fun _ => true; version_info := (5%Z, [0%Z]) |}
           "PythonExporter" eq_refl).
  simpl. auto 10.
Defined.

Lemma tuple_geb_nil (a : list Z) : tuple_geb a [] = true.
Proof. now destruct a. Qed.

Lemma tuple_geb_refl (a : list Z) : tuple_geb a a = true.
Proof.
  induction a as [|x a IH]; [reflexivity|]. simpl.
  now rewrite Z.ltb_irrefl.
Qed.

Lemma tuple_geb_trans (a b c : list Z) :
  tuple_geb a b = true -> tuple_geb b c = true -> tuple_geb a c = true.
Proof.
  revert b c; induction a as [|x a IH]; intros [|y b] [|z c] H1 H2;
    try reflexivity; try discriminate.
  simpl in *.
  destruct (Z.ltb_spec y x), (Z.ltb_spec x y), (Z.ltb_spec z y),
    (Z.ltb_spec y z), (Z.ltb_spec z x), (Z.ltb_spec x z);
    try reflexivity; try discriminate; try lia.
  eauto.
Qed.

(** Where [IPython] is installed, [check_ipy_version] accepts the installed
    version itself, and a version that it accepts as minimum makes it
    accept every minimum that is not above that one. *)
Theorem check_ipy_version_order :
  forall (env : pyenv) (v v' : list Z),
    (importable env "IPython" = true ->
     check_ipy_version env (version_tuple env) = Ok true) /\
    (check_ipy_version env v = Ok true -> tuple_geb v v' = true ->
     check_ipy_version env v' = Ok true).
Proof.
  intros env v v'. unfold check_ipy_version. split.
  - intros ->. now rewrite tuple_geb_refl.
  - destruct (importable env "IPython"); [|discriminate].
    intros [= H] G. f_equal. now apply tuple_geb_trans with v.
Qed.

Lemma check_ipy_version_order_witness :
  check_ipy_version env_no_widgets [5%Z; 1%Z; 0%Z] = Ok true /\
  check_ipy_version env_no_widgets [3%Z] = Ok true.
Proof.
  split.
  - apply (proj1 (check_ipy_version_order env_no_widgets [] [])).
    reflexivity.
  - apply (proj2 (check_ipy_version_order env_no_widgets [4%Z; 2%Z] [3%Z]));
      reflexivity.
Defined.

(** Where [IPython] can be imported, [has_ipynb_widgets] answers whether
    both widget modules of the installed version can be: those of
    [IPython.html] and [IPython.utils] up to version 3, [ipywidgets] and
    [traitlets] after it. *)
Theorem has_ipynb_widgets_answer :
  forall env : pyenv,
    importable env "IPython" = true ->
    has_ipynb_widgets env (module_init env)
    = Ok (if (version_major env <=? 3)%Z
          then importable env "IPython.html.widgets"
               && importable env "IPython.utils.traitlets"
          else importable env "ipywidgets" && importable env "traitlets").
Proof.
  intros env I. unfold has_ipynb_widgets.
  rewrite module_init_bound, I.
  destruct (version_major env <=? 3)%Z; cbn [run_imports];
    repeat match goal with
           | |- context [importable env ?m] =>
               destruct (importable env m)
           end; reflexivity.
Qed.

Lemma has_ipynb_widgets_answer_witness :
  has_ipynb_widgets env_no_widgets (module_init env_no_widgets) = Ok false.
Proof. apply (has_ipynb_widgets_answer env_no_widgets). reflexivity. Defined.

End ProbeMore.

(** ** HTML export with image directories *)

Module HtmlImages.

Import PyStr Spec PyStrFacts Convert Sample CellFacts HtmlFacts HtmlMore.

Section Html.

Variable HTMLExporter : notebook -> text * resources.
Variable uuid4_hex : nat -> text.

(** A call of [export_html] with both image directories that returns has
    drawn one identifier and has made these writes, in this order: the
    payload of every output to its path under the image directory, entry
    after entry, and after them the returned text to the destination path,
    if there is one.  The HTML text is written last. *)
Theorem export_html_images_written :
  forall (nb : notebook) (dest : option text) (dd rr : text)
         (w w' : world) (out : text),
    NoDup (dict_keys (outputs (snd (HTMLExporter nb)))) ->
    export_html HTMLExporter uuid4_hex nb dest (Some dd) (Some rr) w
    = Ok (out, w') ->
    uuid_draws w' = S (uuid_draws w) /\
    written w'
    = written w
      ++ image_writes dd (uuid4_hex (uuid_draws w))
                      (outputs (snd (HTMLExporter nb)))
      ++ dest_write dest out.
Proof.
  intros nb dest dd rr w w' out ND H.
  rewrite export_html_steps in H.
  destruct (fragments_html (fst (HTMLExporter nb))) as [h|];
    [|discriminate].
  cbn [bind] in H.
  destruct (export_images uuid4_hex (snd (HTMLExporter nb)) dd rr h w)
    as [[h' w1]|] eqn:E; [|discriminate].
  apply export_images_returned in E as (_ & Wr & U & _); [|assumption].
  cbn [bind fst snd] in H.
  destruct (save dest h' w1) as [w2|] eqn:S; [|discriminate].
  cbn [bind] in H. injection H as <- <-.
  apply save_written in S as (S & U' & _).
  split; [congruence|]. now rewrite S, Wr, <- app_assoc.
Qed.

End Html.

Lemma export_html_images_written_witness :
  written (record_write (lit "out.html")
                        (TextFile (wrap (lit "h") (lit "b")))
                        one_image_world)
  = [] ++ [(one_image_path, BinaryFile [Byte.x89; Byte.x50])]
       ++ [(lit "out.html", TextFile (wrap (lit "h") (lit "b")))].
Proof.
  refine (proj2 (export_html_images_written
                   (renders (lit "<head>h</head><body>b</body>") one_image)
                   fixed_uuid nb4 (Some (lit "out.html"))
                   (lit "img") (lit "rel") empty_world
                   (record_write (lit "out.html")
                                 (TextFile (wrap (lit "h") (lit "b")))
                                 one_image_world)
                   (wrap (lit "h") (lit "b")) _ eq_refl)).
  repeat constructor. intros [].
Defined.

End HtmlImages.

(** ** A destination path that cannot be written *)

Module DestFailure.

Import PyStr Spec Convert Sample HtmlFacts.

(** When the destination path cannot be written, nothing is returned:
    [export_py], its loop ended, raises the error of the write, and so
    does [export_html] where the call without destination path returns. *)
Theorem export_unwritable_dest :
  forall (PythonExporter HTMLExporter : notebook -> text * resources)
         (uuid4_hex : nat -> text) (fuel : nat) (nb : notebook)
         (d r : option text) (p : text) (w : world),
    (forall stripped,
        strip_loop fuel (fst (PythonExporter nb)) = Some stripped ->
        can_write w p = false ->
        export_py PythonExporter fuel nb (Some p) w = Some (Raise IOError)) /\
    (forall out w0,
        export_html HTMLExporter uuid4_hex nb None d r w = Ok (out, w0) ->
        can_write w0 p = false ->
        export_html HTMLExporter uuid4_hex nb (Some p) d r w
        = Raise IOError).
Proof.
  intros PythonExporter HTMLExporter uuid4_hex fuel nb d r p w. split.
  - intros stripped E C.
    rewrite (ScriptExport.export_py_stripped _ _ _ _ _ _ E).
    now rewrite save_cannot_write.
  - intros out w0 H C. rewrite export_html_steps in *.
    destruct (fragments_html (fst (HTMLExporter nb))) as [h|];
      [|discriminate].
    cbn [bind] in *.
    destruct (match d, r with
              | Some dd, Some rr =>
                  export_images uuid4_hex (snd (HTMLExporter nb)) dd rr h w
              | _, _ => Ok (h, w)
              end) as [[h' w1]|]; [|discriminate].
    cbn [bind fst snd save] in *. injection H as <- <-.
    unfold write_file. now rewrite C.
Qed.

Lemma export_unwritable_dest_witness :
  export_py (renders (unlines ["x = 1"]%string) no_resources)
            0 nb4 (Some (lit "nodir/out.py")) closed_world
  = Some (Raise IOError) /\
  export_html (renders (lit "<head>h</head><body>b</body>") no_resources)
              fixed_uuid nb4 (Some (lit "nodir/out.html")) None None
              closed_world
  = Raise IOError.
Proof.
  split.
  - apply (proj1 (export_unwritable_dest
                    (renders (unlines ["x = 1"]%string) no_resources)
                    (renders [] no_resources) fixed_uuid 0 nb4 None None
                    (lit "nodir/out.py") closed_world)
                 (unlines ["x = 1"]%string));
      reflexivity.
  - apply (proj2 (export_unwritable_dest
                    (renders [] no_resources)
                    (renders (lit "<head>h</head><body>b</body>") no_resources)
                    fixed_uuid 0 nb4 None None
                    (lit "nodir/out.html") closed_world)
                 (wrap (lit "h") (lit "b")) closed_world);
      reflexivity.
Defined.

End DestFailure.
